(** * A single-worker, priority-ordered task executor

    Shallow embedding of [src/common/executor.h] (class [caspar::executor])
    and proofs about its submission, waiting and shutdown behaviour.

    The executor owns one worker thread and one bounded priority channel.
    Task bodies run on the worker thread only: popped by the loop, popped by
    [yield], run in place by [invoke], or run by the wait callback of a
    handle the worker thread waits on.  The embedding is therefore
    sequential for the worker thread, bodies and the calls they make
    included, and atomic for every call made by another thread, up to the
    point where that call would block; a call that blocks hands back the
    state it has reached and where it is suspended.

    The futures library ([boost::packaged_task], [boost::unique_future]) is
    embedded by what the source relies on: a packaged task runs its callable
    at most once and throws [task_already_started] when called again, stores
    the value or the exception of the callable in the state it shares with
    its future, and a wait on an unresolved future first calls the wait
    callback and then sleeps until the state is resolved. *)

From Stdlib Require Import ZArith Lia Sorted Permutation.
From stdpp Require Import list strings.

Local Open Scope Z_scope.
Local Open Scope nat_scope.

(** ** Priorities: [struct task_priority_def] *)

Module task_priority.

Inductive type : Set :=
| lowest_priority
| lower_priority
| low_priority
| normal_priority
| high_priority
| higher_priority.

(** Modelled from the spec: [enum_class.h] is not among the sources;
    [value()] is taken to hand out the enumerator, and the enumerators of
    [task_priority_def] count up from [lowest_priority = 0], the order the
    specification gives the six levels. *)
Definition value (p : type) : Z :=
  match p with
  | lowest_priority => 0
  | lower_priority => 1
  | low_priority => 2
  | normal_priority => 3
  | high_priority => 4
  | higher_priority => 5
  end.

End task_priority.

Abbreviation thread_id := nat (only parsing).

(** A packaged task lives on the heap; queue entries, completion handles and
    wait callbacks all refer to it through its address. *)
Abbreviation task_id := nat (only parsing).

(** ** Errors, values and outcomes *)

(** Modelled from the spec: [except.h] is not among the sources.  Section 6
    of the specification describes a structured error carrying a message
    and the executor's name; here [invalid_operation] carries the
    [msg_info] text and, when the throw site attaches one, the
    [source_info] text.  The next four are the errors of the futures
    library; [user_error] stands for whatever a task body throws, told apart
    by its kind. *)
Inductive error : Set :=
| invalid_operation (msg_info : string) (source_info : option string)
| task_already_started
| task_moved
| future_uninitialized
| broken_promise
| user_error (kind : nat).

(** [boost::unique_future]: either attached to the shared state of a
    packaged task or default-constructed ([future_state::uninitialized]). *)
Inductive unique_future : Set :=
| future_of (t : task_id)
| uninitialized.

Inductive retval : Set :=
| rv_void
| rv_int (z : Z)
| rv_future (f : unique_future).

Inductive result : Set :=
| value (v : retval)
| exception (e : error).

Record priority_function : Set := mk_priority_function {
  priority : Z;
  func : task_id
}.

(** [priority_function::operator<]. *)
Definition priority_function_lt (a other : priority_function) : bool :=
  (priority a <? priority other)%Z.

(** Where a thread can be suspended. *)
Inductive wait_point : Set :=
| in_push (f : priority_function)
| in_pop
| in_future_wait (t : task_id).

Inductive outcome : Set :=
| finished (r : result)
| blocked (w : wait_point)
| out_of_fuel.

(** ** Task bodies

    A body is the callable handed to the executor.  Besides returning and
    throwing it can call back into the executor that runs it, which is what
    the re-entrancy rules are about.  [a_stop_flag] is the body of the
    lambdas of [stop] and of the destructor, [a_skip] the empty body of the
    lambda of [wait]. *)
Inductive action : Set :=
| a_return (v : Z)
| a_throw (e : error)
| a_skip
| a_stop_flag
| a_seq (c : call) (k : action)
with call : Set :=
| c_try_begin_invoke (f : action) (p : task_priority.type)
| c_begin_invoke (f : action) (p : task_priority.type)
| c_invoke (f : action) (p : task_priority.type)
| c_yield
| c_set_capacity (n : nat)
| c_clear
| c_stop
| c_wait
| c_future_wait (f : unique_future)
| c_future_get (f : unique_future).

(** ** The bounded priority channel *)

(** Modelled from the spec: [blocking_bounded_queue_adapter.h] is not among
    the sources, and neither is the concurrent priority queue it wraps.
    Section 4.1 of the specification gives the contract used here: a
    capacity-bounded multiset whose pop returns a highest-priority item,
    with no promise about which one among equals.  The order among equals
    is therefore a parameter, [queue_order]: any function that picks the
    position of an item no other queued item is greater than, as decided by
    the source's own [operator<]. *)
Record queue_order : Type := mk_queue_order {
  select : list priority_function -> nat;
  select_highest : forall q, q <> [] ->
    exists x, q !! select q = Some x /\
              Forall (fun y => priority_function_lt x y = false) q
}.

Module blocking_bounded_queue_adapter.

(** Modelled from the spec: the channel's state, the queued items (in the
    order they were pushed) and the capacity. *)
Record t : Set := mk {
  items : list priority_function;
  capacity : nat
}.

(** Modelled from the spec: [size()], the number of queued items. *)
Definition size (q : t) : nat := length (items q).

(** Modelled from the spec: [set_capacity(n)] takes effect at once and
    evicts nothing. *)
Definition set_capacity (q : t) (n : nat) : t :=
  {| items := items q; capacity := n |}.

(** Modelled from the spec: [try_push(item)] inserts and returns true if
    capacity allows, and otherwise returns false without inserting. *)
Definition try_push (q : t) (x : priority_function) : option t :=
  if size q <? capacity q
  then Some {| items := items q ++ [x]; capacity := capacity q |}
  else None.

(** Modelled from the spec: [push(item)] blocks the caller until capacity is
    available, then inserts.  It is [try_push] for a caller that waits:
    [None] means the caller stays suspended. *)
Definition push (q : t) (x : priority_function) : option t := try_push q x.

(** Modelled from the spec: [try_pop()] removes and returns a
    highest-priority item if there is one. *)
Definition try_pop (O : queue_order) (q : t) : option (priority_function * t) :=
  match items q !! select O (items q) with
  | Some x =>
      Some (x, {| items := delete (select O (items q)) (items q);
                  capacity := capacity q |})
  | None => None
  end.

(** Modelled from the spec: [pop()] blocks until an item is available, then
    removes and returns a highest-priority item.  It is [try_pop] for a
    caller that waits: [None] means the caller stays suspended. *)
Definition pop (O : queue_order) (q : t) : option (priority_function * t) :=
  try_pop O q.

End blocking_bounded_queue_adapter.

Module bq := blocking_bounded_queue_adapter.

(** Two concrete orders among equals: oldest first and newest first. *)
Fixpoint first_highest (q : list priority_function) : nat :=
  match q with
  | [] => 0
  | x :: q' =>
      if forallb (fun y => negb (priority_function_lt x y)) q'
      then 0 else S (first_highest q')
  end.

Fixpoint last_highest (q : list priority_function) : nat :=
  match q with
  | [] => 0
  | x :: q' =>
      if forallb (fun y => priority_function_lt y x) q'
      then 0 else S (last_highest q')
  end.

(** ** The executor *)

Inductive task_status : Set :=
| pending
| started
| done (r : result).

(** The shared state of a [boost::packaged_task]: the callable it wraps and
    whether it has been started and resolved. *)
Record packaged_task : Set := mk_packaged_task {
  body : action;
  status : task_status
}.

(** Modelled from the spec: [log.h] is not among the sources.  The two
    kinds of line the executor writes: [CASPAR_LOG(debug)] with its text and
    [CASPAR_LOG_CURRENT_EXCEPTION()] with the exception in flight. *)
Inductive log_entry : Set :=
| log_debug (message : string)
| log_current_exception (e : error).

(** The members of [class executor], then the heap of packaged tasks the
    queue entries and handles point into, the log, and the sequence of
    tasks whose body has been entered, oldest first (kept for the proofs;
    the program does not read it). *)
Record executor : Set := mk_executor {
  name_ : string;
  is_running_ : bool;
  thread_ : thread_id;
  execution_queue_ : bq.t;
  tasks : list packaged_task;
  log : list log_entry;
  executed : list task_id
}.

(** Assignments to one member each. *)
Definition set_is_running_ (b : bool) (ex : executor) : executor :=
  mk_executor (name_ ex) b (thread_ ex) (execution_queue_ ex) (tasks ex) (log ex) (executed ex).

Definition set_execution_queue_ (q : bq.t) (ex : executor) : executor :=
  mk_executor (name_ ex) (is_running_ ex) (thread_ ex) q (tasks ex) (log ex) (executed ex).

Definition set_tasks (ts : list packaged_task) (ex : executor) : executor :=
  mk_executor (name_ ex) (is_running_ ex) (thread_ ex) (execution_queue_ ex) ts (log ex) (executed ex).

Definition add_log (e : log_entry) (ex : executor) : executor :=
  mk_executor (name_ ex) (is_running_ ex) (thread_ ex) (execution_queue_ ex) (tasks ex)
              (log ex ++ [e]) (executed ex).

Definition add_executed (t : task_id) (ex : executor) : executor :=
  mk_executor (name_ ex) (is_running_ ex) (thread_ ex) (execution_queue_ ex) (tasks ex)
              (log ex) (executed ex ++ [t]).

(** The status of task [t] becomes [s]; nothing happens if there is no
    such task. *)
Definition set_status (t : task_id) (s : task_status) (ex : executor) : executor :=
  set_tasks (alter (fun tk => mk_packaged_task (body tk) s) t (tasks ex)) ex.

Definition status_of (ex : executor) (t : task_id) : option task_status :=
  status <$> tasks ex !! t.

(** The constructor: running, capacity 512, worker thread [worker]. *)
Definition new_executor (name : string) (worker : thread_id) : executor :=
  {| name_ := name;
     is_running_ := true;
     thread_ := worker;
     execution_queue_ := bq.mk [] 512;
     tasks := [];
     log := [];
     executed := [] |}.

Definition is_running (ex : executor) : bool := is_running_ ex.

Definition is_current (ex : executor) (caller : thread_id) : bool :=
  Nat.eqb caller (thread_ ex).

Definition capacity (ex : executor) : nat := bq.capacity (execution_queue_ ex).

Definition size (ex : executor) : nat := bq.size (execution_queue_ ex).

Definition set_capacity (ex : executor) (n : nat) : executor :=
  set_execution_queue_ (bq.set_capacity (execution_queue_ ex) n) ex.

Definition print (ex : executor) : string := ("executor[" ++ name_ ex ++ "]")%string.

Definition throw (ex : executor) (e : error) : executor * outcome :=
  (ex, finished (exception e)).

Definition ret (ex : executor) (v : retval) : executor * outcome :=
  (ex, finished (value v)).

(** [catch(boost::task_already_started&){}] around a call. *)
Definition catch_task_already_started (r : executor * outcome) : executor * outcome :=
  match r with
  | (ex, finished (exception task_already_started)) => ret ex rv_void
  | _ => r
  end.

(** Destroying a packaged task that never ran ([delete raw_task]) breaks its
    promise; one that has started is left as it is. *)
Definition owner_destroyed (ex : executor) (t : task_id) : executor :=
  match status_of ex t with
  | Some pending => set_status t (done (exception broken_promise)) ex
  | _ => ex
  end.

Section executor.

Context (O : queue_order).

(** [func()]: running a task body on the worker thread. *)
Variable func_call : executor -> action -> executor * outcome.

(** [packaged_task::operator()]: a second call throws
    [task_already_started]; the first runs the body and stores what it
    returns or throws in the shared state. *)
Definition packaged_task_call (ex : executor) (t : task_id) : executor * outcome :=
  match tasks ex !! t with
  | None => throw ex task_moved
  | Some tk =>
      match status tk with
      | pending =>
          match func_call (add_executed t (set_status t started ex)) (body tk) with
          | (ex', finished r) => ret (set_status t (done r) ex') rv_void
          | (ex', o) => (ex', o)
          end
      | _ => throw ex task_already_started
      end
  end.

(** The callback given to [set_wait_callback]. *)
Definition wait_callback (caller : thread_id) (ex : executor) (my_task : task_id)
  : executor * outcome :=
  catch_task_already_started
    (if is_current ex caller
     then packaged_task_call ex my_task
     else ret ex rv_void).

(** [unique_future::wait]: the callback runs when the state is not yet
    resolved, then the caller sleeps until it is. *)
Definition future_wait (caller : thread_id) (ex : executor) (f : unique_future)
  : executor * outcome :=
  match f with
  | uninitialized => throw ex future_uninitialized
  | future_of t =>
      match status_of ex t with
      | Some (done _) => ret ex rv_void
      | _ =>
          match wait_callback caller ex t with
          | (ex', finished (value _)) =>
              match status_of ex' t with
              | Some (done _) => ret ex' rv_void
              | _ => (ex', blocked (in_future_wait t))
              end
          | r => r
          end
      end
  end.

(** [unique_future::get]: wait, then hand out the value or rethrow. *)
Definition future_get (caller : thread_id) (ex : executor) (f : unique_future)
  : executor * outcome :=
  match future_wait caller ex f with
  | (ex', finished (value _)) =>
      match f with
      | future_of t =>
          match status_of ex' t with
          | Some (done r) => (ex', finished r)
          | _ => (ex', blocked (in_future_wait t))
          end
      | uninitialized => throw ex' future_uninitialized
      end
  | r => r
  end.

(** The lambda stored in the queue entry.  The [unique_ptr] it holds
    destroys the packaged task when the lambda returns, which changes
    nothing for a task that has started. *)
Definition queued_function (ex : executor) (raw_task : task_id) : executor * outcome :=
  catch_task_already_started (packaged_task_call ex raw_task).

(** [priority_function::operator()]. *)
Definition priority_function_call (ex : executor) (f : priority_function)
  : executor * outcome :=
  queued_function ex (func f).

(** [internal_begin_invoke]: allocate the packaged task, take its future,
    try to queue the entry; on a full channel either destroy the task and
    return the uninitialized future, or log and wait in [push]. *)
Definition internal_begin_invoke (ex : executor) (f : action) (try_begin : bool)
    (p : task_priority.type) : executor * outcome :=
  let raw_task := length (tasks ex) in
  let ex1 := set_tasks (tasks ex ++ [mk_packaged_task f pending]) ex in
  let future := future_of raw_task in
  let prio_func := mk_priority_function (task_priority.value p) raw_task in
  match bq.try_push (execution_queue_ ex1) prio_func with
  | Some q => ret (set_execution_queue_ q ex1) (rv_future future)
  | None =>
      if try_begin
      then ret (owner_destroyed ex1 raw_task) (rv_future uninitialized)
      else
        let ex2 := add_log (log_debug (print ex1 ++ " Overflow. Blocking caller.")%string) ex1 in
        match bq.push (execution_queue_ ex2) prio_func with
        | Some q => ret (set_execution_queue_ q ex2) (rv_future future)
        | None => (ex2, blocked (in_push prio_func))
        end
  end.

(** What is left of [internal_begin_invoke] for a caller suspended in
    [push]: insert once there is room, then return the handle. *)
Definition push_resumed (ex : executor) (prio_func : priority_function)
  : executor * outcome :=
  match bq.push (execution_queue_ ex) prio_func with
  | Some q => ret (set_execution_queue_ q ex) (rv_future (future_of (func prio_func)))
  | None => (ex, blocked (in_push prio_func))
  end.

(** [try_begin_invoke]: the throw site attaches [msg_info] only. *)
Definition try_begin_invoke (ex : executor) (f : action) (p : task_priority.type)
  : executor * outcome :=
  if negb (is_running_ ex)
  then throw ex (invalid_operation "executor not running."%string None)
  else internal_begin_invoke ex f true p.

(** [begin_invoke]: the throw site attaches [msg_info] and
    [source_info(name_)]. *)
Definition begin_invoke (ex : executor) (f : action) (p : task_priority.type)
  : executor * outcome :=
  if negb (is_running_ ex)
  then throw ex (invalid_operation "executor not running."%string (Some (name_ ex)))
  else internal_begin_invoke ex f false p.

(** [invoke]: [func()] in place on the worker thread, and
    [begin_invoke(func, priority).get()] anywhere else. *)
Definition invoke (caller : thread_id) (ex : executor) (f : action)
    (p : task_priority.type) : executor * outcome :=
  if is_current ex caller
  then func_call ex f
  else
    match begin_invoke ex f p with
    | (ex', finished (value (rv_future future))) => future_get caller ex' future
    | r => r
    end.

(** [yield]: off the worker thread it throws; on it, it pops one entry if
    there is one and calls it. *)
Definition yield (caller : thread_id) (ex : executor) : executor * outcome :=
  if negb (is_current ex caller)
  then throw ex (invalid_operation "Executor can only yield inside of thread context."%string
                                   (Some (name_ ex)))
  else
    match bq.try_pop O (execution_queue_ ex) with
    | Some (f, q) => priority_function_call (set_execution_queue_ q ex) f
    | None => ret ex rv_void
    end.

(** [while(execution_queue_.try_pop(func));] over at most [n] entries. *)
Fixpoint clear_loop (n : nat) (q : bq.t) : bq.t :=
  match n with
  | 0 => q
  | S n' =>
      match bq.try_pop O q with
      | Some (_, q') => clear_loop n' q'
      | None => q
      end
  end.

(** [clear]: the entries are dropped without being called. *)
Definition clear (ex : executor) : executor :=
  set_execution_queue_ (clear_loop (size ex) (execution_queue_ ex)) ex.

(** [stop]: [invoke] of the lambda that clears the flag, at the default
    priority. *)
Definition stop (caller : thread_id) (ex : executor) : executor * outcome :=
  invoke caller ex a_stop_flag task_priority.normal_priority.

(** [wait]: [invoke] of the empty lambda at the lowest priority. *)
Definition wait (caller : thread_id) (ex : executor) : executor * outcome :=
  invoke caller ex a_skip task_priority.lowest_priority.

(** The destructor up to [thread_.join()]: the shutdown lambda goes through
    [internal_begin_invoke] with the default priority, the caller waits on
    its handle, and whatever is thrown is logged. *)
Definition destroy (caller : thread_id) (ex : executor) : executor * outcome :=
  match internal_begin_invoke ex a_stop_flag false task_priority.normal_priority with
  | (ex', finished (value (rv_future future))) =>
      match future_wait caller ex' future with
      | (ex'', finished (exception e)) => ret (add_log (log_current_exception e) ex'') rv_void
      | r => r
      end
  | (ex', finished (exception e)) => ret (add_log (log_current_exception e) ex') rv_void
  | r => r
  end.

(** A call of a member function, or of [wait]/[get] on a handle, by thread
    [caller]. *)
Definition do_call (caller : thread_id) (ex : executor) (c : call) : executor * outcome :=
  match c with
  | c_try_begin_invoke f p => try_begin_invoke ex f p
  | c_begin_invoke f p => begin_invoke ex f p
  | c_invoke f p => invoke caller ex f p
  | c_yield => yield caller ex
  | c_set_capacity n => ret (set_capacity ex n) rv_void
  | c_clear => ret (clear ex) rv_void
  | c_stop => stop caller ex
  | c_wait => wait caller ex
  | c_future_wait f => future_wait caller ex f
  | c_future_get f => future_get caller ex f
  end.

(** [run], the worker loop, for at most [n] rounds: it ends normally when
    it finds the flag cleared, and is suspended in [pop] on an empty
    queue. *)
Fixpoint run (n : nat) (ex : executor) : executor * outcome :=
  match n with
  | 0 => (ex, out_of_fuel)
  | S n' =>
      if is_running_ ex
      then
        match bq.pop O (execution_queue_ ex) with
        | None => (ex, blocked in_pop)
        | Some (f, q) =>
            match priority_function_call (set_execution_queue_ q ex) f with
            | (ex', finished (value _)) => run n' ex'
            | (ex', finished (exception e)) => run n' (add_log (log_current_exception e) ex')
            | r => r
            end
        end
      else ret ex rv_void
  end.

End executor.

(** Running a body on the worker thread, with [n] bounding its depth: the
    calls it makes are calls of the worker thread, and the bodies those calls
    run in place are run the same way. *)
Fixpoint exec (O : queue_order) (n : nat) (ex : executor) (a : action)
  : executor * outcome :=
  match n with
  | 0 => (ex, out_of_fuel)
  | S m =>
      match a with
      | a_return v => ret ex (rv_int v)
      | a_throw e => throw ex e
      | a_skip => ret ex rv_void
      | a_stop_flag => ret (set_is_running_ false ex) rv_void
      | a_seq c k =>
          match do_call O (exec O m) (thread_ ex) ex c with
          | (ex', finished (value _)) => exec O m ex' k
          | r => r
          end
      end
  end.

(** Emptying a channel by popping [n] times: the entries in the order they
    come out. *)
Fixpoint dequeue_all (O : queue_order) (n : nat) (q : bq.t) : list priority_function :=
  match n with
  | 0 => []
  | S n' =>
      match bq.pop O q with
      | Some (x, q') => x :: dequeue_all O n' q'
      | None => []
      end
  end.

(** Pushing a sequence of entries, stopping at the first that finds the
    channel full. *)
Fixpoint push_all (q : bq.t) (xs : list priority_function) : option bq.t :=
  match xs with
  | [] => Some q
  | x :: xs' =>
      match bq.push q x with
      | Some q' => push_all q' xs'
      | None => None
      end
  end.

(** Non-increasing priority along a sequence of queue entries. *)
Definition priority_ge (a b : priority_function) : Prop :=
  (priority b <= priority a)%Z.

(** ** What holds of every execution *)

(** How often the body of task [t] has been entered. *)
Definition runs (ex : executor) (t : task_id) : nat :=
  count_occ Nat.eq_dec (executed ex) t.

(** A task that has left [pending] keeps its status for as long as a call
    made meanwhile lasts: a started task is resolved only by the call that
    started it. *)
Definition status_le (s s' : task_status) : Prop := s = pending \/ s' = s.

(** What every call, every body and every round of the loop respects: the
    name and the worker thread stay, a cleared flag stays cleared, every
    task keeps its body and, once it has left [pending], its status, and
    the sequence of bodies entered only grows. *)
Record evolves (ex ex' : executor) : Prop := mk_evolves {
  evolves_name : name_ ex' = name_ ex;
  evolves_thread : thread_ ex' = thread_ ex;
  evolves_running : is_running_ ex = false -> is_running_ ex' = false;
  evolves_tasks : forall t tk, tasks ex !! t = Some tk ->
    exists tk', tasks ex' !! t = Some tk' /\ body tk' = body tk /\
                status_le (status tk) (status tk');
  evolves_executed : executed ex `prefix_of` executed ex'
}.

(** Every body has been entered at most once, and exactly once if its task
    is started. *)
Definition once (ex : executor) : Prop :=
  forall t,
    match status_of ex t with
    | Some started => runs ex t = 1
    | Some (done _) => runs ex t <= 1
    | _ => runs ex t = 0
    end.

(** A shutdown lambda that returned has cleared the flag. *)
Definition flag_cleared (ex : executor) : Prop :=
  forall t tk v, tasks ex !! t = Some tk -> body tk = a_stop_flag ->
                 status tk = done (value v) -> is_running_ ex = false.

(** The invariant of the executor. *)
Definition inv (ex : executor) : Prop := once ex /\ flag_cleared ex.

(** A step from [ex] that keeps the invariant and respects [evolves]. *)
Definition step_ok (ex : executor) (r : executor * outcome) : Prop :=
  inv r.1 /\ evolves ex r.1.

(** What the calls need of the way bodies are run. *)
Definition sound (func_call : executor -> action -> executor * outcome) : Prop :=
  forall ex a, inv ex ->
    step_ok ex (func_call ex a) /\
    (a = a_stop_flag -> forall v, (func_call ex a).2 = finished (value v) ->
                        is_running_ (func_call ex a).1 = false).

(** What can happen to an executor: a call by some thread, taken up to the
    point where it returns or is suspended; a suspended [push] going
    through; the destructor; the worker making up to [n] rounds of its
    loop.  [m] bounds the depth of the bodies run.  The states reached by
    sequences of events include every state of a real execution (and more:
    an event may be a call on the worker thread between two rounds). *)
Inductive event : Set :=
| e_call (m : nat) (caller : thread_id) (c : call)
| e_push_resumed (f : priority_function)
| e_destroy (m : nat) (caller : thread_id)
| e_run (m n : nat).

(** The state after one event, and after a sequence of events. *)
Definition fire (O : queue_order) (ex : executor) (e : event) : executor :=
  match e with
  | e_call m caller c => (do_call O (exec O m) caller ex c).1
  | e_push_resumed f => (push_resumed ex f).1
  | e_destroy m caller => (destroy (exec O m) caller ex).1
  | e_run m n => (run O (exec O m) n ex).1
  end.

Definition play (O : queue_order) (ex : executor) (es : list event) : executor :=
  foldl (fire O) ex es.

(** The executor after a submission that found room. *)
Definition submitted (ex : executor) (f : action) (p : task_priority.type) : executor :=
  set_execution_queue_
    (bq.mk (bq.items (execution_queue_ ex) ++
              [mk_priority_function (task_priority.value p) (length (tasks ex))])
           (bq.capacity (execution_queue_ ex)))
    (set_tasks (tasks ex ++ [mk_packaged_task f pending]) ex).


(** ** Bodies that do not call back into the executor *)

(** A plain body returns, throws or clears the flag, and makes no call. *)
Definition plain (a : action) : bool :=
  match a with
  | a_seq _ _ => false
  | _ => true
  end.

(** What a plain body hands back, and what it does to the executor. *)
Definition plain_result (a : action) : result :=
  match a with
  | a_return v => value (rv_int v)
  | a_throw e => exception e
  | _ => value rv_void
  end.

Definition plain_effect (a : action) (ex : executor) : executor :=
  match a with
  | a_stop_flag => set_is_running_ false ex
  | _ => ex
  end.

(** Tests on the status of a task. *)
Definition is_started (s : task_status) : bool :=
  match s with
  | started => true
  | _ => false
  end.

Definition is_pending (ex : executor) (t : task_id) : bool :=
  match status_of ex t with
  | Some pending => true
  | _ => false
  end.

(** The worker is between two rounds of its loop and what is still to run
    is plain: no task is in progress, every pending task has a plain body,
    and every queue entry has a task of its own. *)
Definition calm (ex : executor) : Prop :=
  Forall (fun tk => is_started (status tk) = false /\
                    (status tk = pending -> plain (body tk) = true)) (tasks ex) /\
  NoDup (func <$> bq.items (execution_queue_ ex)) /\
  Forall (fun f => func f < length (tasks ex)) (bq.items (execution_queue_ ex)).

(** What calling the queue entry of task [t] does when its body is plain. *)
Definition plain_call (ex : executor) (t : task_id) : executor :=
  match tasks ex !! t with
  | Some tk =>
      match status tk with
      | pending =>
          set_status t (done (plain_result (body tk)))
            (plain_effect (body tk) (add_executed t (set_status t started ex)))
      | _ => ex
      end
  | None => ex
  end.

(** A sequence of submissions through [begin_invoke], in order. *)
Fixpoint submit_all (ex : executor) (subs : list (action * task_priority.type)) : executor :=
  match subs with
  | [] => ex
  | (f, p) :: subs' => submit_all (begin_invoke ex f p).1 subs'
  end.

(** The queue entry of the [i]-th submission to an executor that had
    allocated [base] tasks before. *)
Definition entry_of (base i : nat) (sub : action * task_priority.type) : priority_function :=
  mk_priority_function (task_priority.value sub.2) (base + i).

(** A body that neither calls back into the executor nor stops it. *)
Definition returns_or_throws (a : action) : bool :=
  match a with
  | a_return _ | a_throw _ | a_skip => true
  | _ => false
  end.

(** A running executor between two rounds whose queued tasks are all
    pending and leave the flag alone. *)
Definition ready (ex : executor) : Prop :=
  calm ex /\ is_running_ ex = true /\
  forall f, f ∈ bq.items (execution_queue_ ex) ->
    exists tk, tasks ex !! func f = Some tk /\ status tk = pending /\
               returns_or_throws (body tk) = true.

(** Changes to the queue and to the log touch nothing the invariants read. *)
Definition same_core (ex ex' : executor) : Prop :=
  name_ ex' = name_ ex /\ thread_ ex' = thread_ ex /\
  is_running_ ex' = is_running_ ex /\ tasks ex' = tasks ex /\
  executed ex' = executed ex.





(** ** Further notions *)

(** Every queue entry refers to a packaged task that has been allocated. *)
Definition allocated (ex : executor) : Prop :=
  Forall (fun f => func f < length (tasks ex)) (bq.items (execution_queue_ ex)).

(** The log lines written with [CASPAR_LOG(debug)]. *)
Definition is_debug (e : log_entry) : bool :=
  match e with
  | log_debug _ => true
  | log_current_exception _ => false
  end.

(** A step that keeps the queue entries allocated and writes nothing but
    debug lines. *)
Definition tidy (ex ex' : executor) : Prop :=
  allocated ex ->
  allocated ex' /\
  exists l, log ex' = log ex ++ l /\ Forall (fun e => is_debug e = true) l.

Definition tidy_calls (func_call : executor -> action -> executor * outcome) : Prop :=
  forall ex a, tidy ex (func_call ex a).1.


(** An event that is not a call made on the worker thread [w]. *)
Definition off_worker (w : thread_id) (e : event) : Prop :=
  match e with
  | e_call _ caller _ | e_destroy _ caller => caller <> w
  | _ => True
  end.

(** A body that submits through [begin_invoke], one submission after the
    other, and then goes on as [k]. *)
Fixpoint submits (subs : list (action * task_priority.type)) (k : action) : action :=
  match subs with
  | [] => k
  | (g, p) :: subs' => a_seq (c_begin_invoke g p) (submits subs' k)
  end.

(** * Properties *)

(** ** The channel *)

Lemma priority_function_lt_irrefl x : priority_function_lt x x = false.
Proof. unfold priority_function_lt. apply Z.ltb_irrefl. Qed.

Lemma first_highest_spec q :
  q <> [] ->
  exists x, q !! first_highest q = Some x /\
            Forall (fun y => priority_function_lt x y = false) q.
Proof.
  induction q as [|x q IH]; [done|]. intros _. simpl.
  destruct (forallb _ q) eqn:E.
  - exists x. split; [done|]. constructor; [apply priority_function_lt_irrefl|].
    apply Forall_forall. intros y Hy.
    rewrite forallb_forall in E. apply list_elem_of_In in Hy.
    specialize (E y Hy). by apply negb_true_iff in E.
  - destruct q as [|z q]; [done|].
    destruct IH as (w & Hw & Hall); [done|].
    exists w. split; [done|]. constructor; [|done].
    apply not_true_iff_false in E. rewrite forallb_forall in E.
    unfold priority_function_lt in *.
    destruct (priority w <? priority x)%Z eqn:L; [|done].
    exfalso. apply E. intros y Hy. apply list_elem_of_In in Hy.
    rewrite Forall_forall in Hall. specialize (Hall y Hy).
    apply negb_true_iff. apply Z.ltb_lt in L. apply Z.ltb_ge in Hall.
    apply Z.ltb_ge. lia.
Qed.

Lemma last_highest_spec q :
  q <> [] ->
  exists x, q !! last_highest q = Some x /\
            Forall (fun y => priority_function_lt x y = false) q.
Proof.
  induction q as [|x q IH]; [done|]. intros _. simpl.
  destruct (forallb _ q) eqn:E.
  - exists x. split; [done|]. constructor; [apply priority_function_lt_irrefl|].
    apply Forall_forall. intros y Hy.
    rewrite forallb_forall in E. apply list_elem_of_In in Hy.
    specialize (E y Hy). unfold priority_function_lt in *.
    apply Z.ltb_lt in E. apply Z.ltb_ge. lia.
  - destruct q as [|z q]; [done|].
    destruct IH as (w & Hw & Hall); [done|].
    exists w. split; [done|]. constructor; [|done].
    apply not_true_iff_false in E. rewrite forallb_forall in E.
    unfold priority_function_lt in *.
    destruct (priority w <? priority x)%Z eqn:L; [|done].
    exfalso. apply E. intros y Hy. apply list_elem_of_In in Hy.
    rewrite Forall_forall in Hall. specialize (Hall y Hy).
    apply Z.ltb_lt in L. apply Z.ltb_ge in Hall.
    apply Z.ltb_lt. lia.
Qed.

Definition oldest_first : queue_order := mk_queue_order first_highest first_highest_spec.
Definition newest_first : queue_order := mk_queue_order last_highest last_highest_spec.

Section channel.

Context (O : queue_order).

Lemma pop_Some q x q' :
  bq.pop O q = Some (x, q') ->
  bq.items q !! select O (bq.items q) = Some x /\
  bq.items q' = delete (select O (bq.items q)) (bq.items q) /\
  bq.capacity q' = bq.capacity q.
Proof.
  unfold bq.pop, bq.try_pop. destruct (bq.items q !! _) eqn:E; [|done].
  intros [= <- <-]. done.
Qed.

Lemma pop_None q : bq.pop O q = None <-> bq.items q = [].
Proof.
  unfold bq.pop, bq.try_pop. split.
  - destruct (bq.items q) as [|y l] eqn:E; [done|].
    destruct (select_highest O (y :: l)) as (x & -> & _); done.
  - intros ->. by destruct (select O []).
Qed.

Lemma pop_highest q x q' :
  bq.pop O q = Some (x, q') ->
  Forall (priority_ge x) (bq.items q).
Proof.
  intros (Hx & _ & _)%pop_Some.
  destruct (select_highest O (bq.items q)) as (x' & Hx' & Hall).
  { intros E. rewrite E in Hx. by destruct (select O []). }
  rewrite Hx in Hx'. injection Hx' as <-.
  eapply Forall_impl; [exact Hall|]. intros y Hy. unfold priority_ge.
  unfold priority_function_lt in Hy. by apply Z.ltb_ge in Hy.
Qed.

Lemma pop_Permutation q x q' :
  bq.pop O q = Some (x, q') -> bq.items q ≡ₚ x :: bq.items q'.
Proof.
  intros (Hx & -> & _)%pop_Some. by apply delete_Permutation.
Qed.

Lemma pop_size q x q' :
  bq.pop O q = Some (x, q') -> bq.size q = S (bq.size q').
Proof.
  intros H%pop_Permutation. unfold bq.size. by rewrite H.
Qed.

Lemma dequeue_all_Permutation n q :
  bq.size q <= n -> dequeue_all O n q ≡ₚ bq.items q.
Proof.
  revert q. induction n as [|n IH]; intros q Hn; simpl.
  - unfold bq.size in Hn. destruct (bq.items q); [done|simpl in Hn; lia].
  - destruct (bq.pop O q) as [[x q']|] eqn:E.
    + rewrite (pop_Permutation _ _ _ E). f_equiv. apply IH.
      apply pop_size in E. lia.
    + apply pop_None in E. by rewrite E.
Qed.

Lemma dequeue_all_sorted n q : StronglySorted priority_ge (dequeue_all O n q).
Proof.
  revert q. induction n as [|n IH]; intros q; simpl; [constructor|].
  destruct (bq.pop O q) as [[x q']|] eqn:E; [|constructor].
  constructor; [apply IH|].
  assert (Hall := pop_highest _ _ _ E).
  rewrite (pop_Permutation _ _ _ E) in Hall. apply Forall_cons_1 in Hall as [_ Hall].
  destruct (Nat.le_gt_cases (bq.size q') n) as [Hle|Hgt].
  - by rewrite dequeue_all_Permutation.
  - clear IH E. revert q' Hall Hgt. induction n as [|n IH]; intros q' Hall Hgt; simpl; [constructor|].
    destruct (bq.pop O q') as [[y q'']|] eqn:E; [|constructor].
    rewrite (pop_Permutation _ _ _ E) in Hall. apply Forall_cons_1 in Hall as [Hy Hall].
    constructor; [done|]. apply IH; [done|]. apply pop_size in E. lia.
Qed.

Lemma push_all_items q xs :
  bq.size q + length xs <= bq.capacity q ->
  exists q', push_all q xs = Some q' /\ bq.items q' = bq.items q ++ xs /\
             bq.capacity q' = bq.capacity q.
Proof.
  revert q. induction xs as [|x xs IH]; intros q Hc; simpl.
  - exists q. by rewrite app_nil_r.
  - simpl in Hc. unfold bq.push, bq.try_push.
    destruct (Nat.ltb_spec (bq.size q) (bq.capacity q)) as [_|Hge]; [|lia].
    destruct (IH {| bq.items := bq.items q ++ [x]; bq.capacity := bq.capacity q |})
      as (q' & -> & Hi & Hcap).
    { unfold bq.size in *. simpl. rewrite length_app. simpl. lia. }
    exists q'. simpl in *. by rewrite Hi, <- app_assoc.
Qed.

Lemma clear_loop_empties n q : bq.size q <= n -> bq.items (clear_loop O n q) = [].
Proof.
  revert q. induction n as [|n IH]; intros q L; simpl.
  - unfold bq.size in L. destruct (bq.items q); [done|simpl in L; lia].
  - change (bq.try_pop O q) with (bq.pop O q).
    destruct (bq.pop O q) as [[x q']|] eqn:E; [|by apply pop_None].
    apply IH. apply pop_size in E. lia.
Qed.

(** [clear] leaves the queue empty and the dropped tasks as they were. *)
Lemma clear_discards ex :
  bq.items (execution_queue_ (clear O ex)) = [] /\ tasks (clear O ex) = tasks ex.
Proof. split; [|done]. unfold clear. simpl. by apply clear_loop_empties. Qed.

End channel.

(** ** Invariants of the calls *)

Lemma evolves_refl ex : evolves ex ex.
Proof.
  split; try done. intros t tk H. exists tk. split_and!; try done. by right.
Qed.

Lemma status_le_trans s1 s2 s3 : status_le s1 s2 -> status_le s2 s3 -> status_le s1 s3.
Proof. unfold status_le. intros [->| ->]; [by left|]. done. Qed.

Lemma evolves_trans ex1 ex2 ex3 : evolves ex1 ex2 -> evolves ex2 ex3 -> evolves ex1 ex3.
Proof.
  intros [N1 T1 R1 K1 E1] [N2 T2 R2 K2 E2]. split.
  - congruence.
  - congruence.
  - auto.
  - intros t tk H. destruct (K1 _ _ H) as (tk' & H' & B' & L').
    destruct (K2 _ _ H') as (tk'' & H'' & B'' & L'').
    exists tk''. split_and!; [done|congruence|by eapply status_le_trans].
  - by etrans.
Qed.

Lemma step_ok_trans ex ex1 r :
  inv ex1 -> evolves ex ex1 -> (inv ex1 -> step_ok ex1 r) -> step_ok ex r.
Proof.
  intros I E H. destruct (H I) as [I' E']. split; [done|]. by eapply evolves_trans.
Qed.


Lemma same_core_ok ex ex' o : same_core ex ex' -> inv ex -> step_ok ex (ex', o).
Proof.
  intros (N & T & R & K & E) [Io If]. split; [split|split]; simpl.
  - intros t. specialize (Io t). unfold status_of, runs in *. by rewrite K, E.
  - intros t tk v. rewrite K, R. apply If.
  - done.
  - done.
  - by rewrite R.
  - intros t tk H. exists tk. rewrite K. split_and!; try done. by right.
  - by rewrite E.
Qed.

Ltac norm :=
  cbn [name_ thread_ is_running_ executed log execution_queue_ tasks
       set_status set_tasks add_executed add_log set_execution_queue_
       set_is_running_ set_capacity fst snd ret throw] in *.

Lemma status_of_set_status_eq t s ex :
  status_of (set_status t s ex) t = (fun _ => s) <$> status_of ex t.
Proof.
  unfold status_of. norm. rewrite list_lookup_alter_eq. by destruct (tasks ex !! _).
Qed.

Lemma status_of_set_status_ne t s ex t' :
  t <> t' -> status_of (set_status t s ex) t' = status_of ex t'.
Proof. intros N. unfold status_of. norm. by rewrite list_lookup_alter_ne. Qed.

Lemma runs_add_executed_eq t ex : runs (add_executed t ex) t = S (runs ex t).
Proof.
  unfold runs. norm. rewrite count_occ_app. simpl.
  destruct (Nat.eq_dec t t); [lia|done].
Qed.

Lemma runs_add_executed_ne t t' ex : t <> t' -> runs (add_executed t ex) t' = runs ex t'.
Proof.
  intros N. unfold runs. norm. rewrite count_occ_app. simpl.
  destruct (Nat.eq_dec t t'); [done|lia].
Qed.

Lemma allocate_ok ex f o :
  inv ex -> step_ok ex (set_tasks (tasks ex ++ [mk_packaged_task f pending]) ex, o).
Proof.
  intros [Io If]. split; [split|split]; norm; try done.
  - intros t. specialize (Io t). unfold status_of, runs in *. norm.
    destruct (decide (t < length (tasks ex))) as [L|L].
    + by rewrite lookup_app_l.
    + rewrite lookup_ge_None_2 in Io by lia. simpl in Io.
      destruct ((tasks ex ++ _) !! t) as [tk|] eqn:E; [|done]. simpl.
      apply lookup_app_Some in E as [E|[_ E]].
      * apply lookup_lt_Some in E. lia.
      * apply list_lookup_singleton_Some in E as [_ <-]. done.
  - intros t tk v H B S. norm. apply lookup_app_Some in H as [H|[_ H]].
    + by eapply If.
    + apply list_lookup_singleton_Some in H as [_ <-]. done.
  - intros t tk H. exists tk. split_and!; [by apply lookup_app_l_Some|done|by right].
Qed.

(** Moving one pending task to status [s]. *)
Lemma set_status_evolves ex t s :
  status_of ex t = Some pending -> evolves ex (set_status t s ex).
Proof.
  intros S. split; norm; try done.
  intros t' tk H. destruct (decide (t = t')) as [<-|N].
  - rewrite list_lookup_alter_eq, H. simpl. eexists. split_and!; [done|done|].
    left. unfold status_of in S. rewrite H in S. simpl in S. congruence.
  - rewrite list_lookup_alter_ne by done. exists tk. split_and!; [done|done|by right].
Qed.

Lemma set_status_flag_cleared ex t s :
  flag_cleared ex ->
  (forall tk v, tasks ex !! t = Some tk -> body tk = a_stop_flag ->
                s = done (value v) -> is_running_ ex = false) ->
  flag_cleared (set_status t s ex).
Proof.
  intros If Hs t' tk v H B E. norm. destruct (decide (t = t')) as [<-|N].
  - rewrite list_lookup_alter_eq in H.
    apply fmap_Some in H as (tk0 & K & ->). simpl in *. by eapply Hs.
  - rewrite list_lookup_alter_ne in H by done. by eapply If.
Qed.

Lemma owner_destroyed_ok ex t o : inv ex -> step_ok ex (owner_destroyed ex t, o).
Proof.
  intros I. unfold owner_destroyed.
  destruct (status_of ex t) as [[| |r]|] eqn:S; try (apply same_core_ok; done).
  destruct I as [Io If]. split; [split|]; norm.
  - intros t'. specialize (Io t').
    change (runs (set_status t (done (exception broken_promise)) ex) t') with (runs ex t').
    destruct (decide (t = t')) as [<-|N].
    + rewrite status_of_set_status_eq, S in *. simpl. lia.
    + by rewrite status_of_set_status_ne.
  - apply set_status_flag_cleared; [done|]. intros; done.
  - by apply set_status_evolves.
Qed.

(** Entering the body of a pending task. *)
Lemma enter_ok ex t o :
  status_of ex t = Some pending ->
  inv ex -> step_ok ex (add_executed t (set_status t started ex), o).
Proof.
  intros S [Io If]. split; [split|]; norm.
  - intros t'. specialize (Io t').
    change (status_of (add_executed t (set_status t started ex)) t')
      with (status_of (set_status t started ex) t').
    destruct (decide (t = t')) as [<-|N].
    + rewrite runs_add_executed_eq, status_of_set_status_eq, S in *. simpl.
      change (runs (set_status t started ex) t) with (runs ex t). lia.
    + rewrite runs_add_executed_ne, status_of_set_status_ne by done. done.
  - apply (set_status_flag_cleared ex t started); [done|]. intros; done.
  - eapply evolves_trans; [by apply set_status_evolves|].
    split; norm; try done.
    + intros t' tk H. exists tk. split_and!; [done|done|by right].
    + by apply prefix_app_r.
Qed.

Section calls.

Context (O : queue_order) (func_call : executor -> action -> executor * outcome).
Hypothesis func_call_sound : sound func_call.

Lemma packaged_task_call_ok ex t : inv ex -> step_ok ex (packaged_task_call func_call ex t).
Proof.
  intros I. unfold packaged_task_call.
  destruct (tasks ex !! t) as [tk|] eqn:K; [|by apply same_core_ok].
  destruct (status tk) eqn:S; try (by apply same_core_ok).
  assert (St : status_of ex t = Some pending) by (unfold status_of; by rewrite K, <- S).
  destruct (enter_ok ex t out_of_fuel St I) as [I1 E1]. norm.
  set (ex1 := add_executed t (set_status t started ex)) in *.
  destruct (func_call_sound ex1 (body tk) I1) as [[I2 E2] F].
  destruct (func_call ex1 (body tk)) as [ex2 o] eqn:R. norm.
  assert (K2 : exists tk2, tasks ex2 !! t = Some tk2 /\ body tk2 = body tk /\ status tk2 = started).
  { destruct (evolves_tasks _ _ E2 t (mk_packaged_task (body tk) started)) as (tk2 & H2 & B2 & L2).
    - unfold ex1. norm. by rewrite list_lookup_alter_eq, K.
    - exists tk2. split_and!; [done|done|]. by destruct L2. }
  destruct K2 as (tk2 & K2 & B2 & S2).
  assert (E02 : evolves ex ex2) by (by eapply evolves_trans).
  destruct o as [r| |]; [|done|done].
  split; [split|split]; norm.
  - intros t'. destruct I2 as [Io _]. specialize (Io t').
    change (runs (set_status t (done r) ex2) t') with (runs ex2 t').
    destruct (decide (t = t')) as [<-|N].
    + rewrite status_of_set_status_eq. unfold status_of in *. rewrite K2 in *. simpl in *.
      rewrite S2 in Io. lia.
    + by rewrite status_of_set_status_ne.
  - apply set_status_flag_cleared; [apply I2|].
    intros tk' v H B [= ->]. rewrite K2 in H. injection H as <-.
    apply (F ltac:(congruence) v). done.
  - apply E02.
  - apply E02.
  - apply E02.
  - intros t' tk' H. destruct (decide (t = t')) as [<-|N].
    + rewrite list_lookup_alter_eq, K2. simpl. eexists. split_and!; [done|simpl; congruence|].
      left. congruence.
    + rewrite list_lookup_alter_ne by done. by apply E02.
  - apply E02.
Qed.


Lemma step_ok_refl ex o : inv ex -> step_ok ex (ex, o).
Proof. intros I. split; [done|apply evolves_refl]. Qed.

Lemma catch_task_already_started_fst r : (catch_task_already_started r).1 = r.1.
Proof. destruct r as [ex [[v|[]]| |]]; done. Qed.

Lemma step_ok_fst ex r r' : r'.1 = r.1 -> step_ok ex r -> step_ok ex r'.
Proof. unfold step_ok. by intros ->. Qed.

Lemma wait_callback_ok caller ex t :
  inv ex -> step_ok ex (wait_callback func_call caller ex t).
Proof.
  intros I. unfold wait_callback.
  eapply step_ok_fst; [apply catch_task_already_started_fst|].
  destruct (is_current ex caller); [by apply packaged_task_call_ok|by apply step_ok_refl].
Qed.

Lemma queued_function_ok ex t : inv ex -> step_ok ex (queued_function func_call ex t).
Proof.
  intros I. unfold queued_function.
  eapply step_ok_fst; [apply catch_task_already_started_fst|].
  by apply packaged_task_call_ok.
Qed.

Lemma future_wait_ok caller ex f :
  inv ex -> step_ok ex (future_wait func_call caller ex f).
Proof.
  intros I. unfold future_wait. destruct f as [t|]; [|by apply step_ok_refl].
  assert (W := wait_callback_ok caller ex t I).
  destruct (wait_callback func_call caller ex t) as [ex' o].
  repeat case_match; first [exact W|by apply step_ok_refl].
Qed.

Lemma future_get_ok caller ex f :
  inv ex -> step_ok ex (future_get func_call caller ex f).
Proof.
  intros I. unfold future_get.
  assert (W := future_wait_ok caller ex f I).
  destruct (future_wait func_call caller ex f) as [ex' o].
  repeat case_match; exact W.
Qed.

Lemma push_ok ex q o :
  inv ex -> step_ok ex (set_execution_queue_ q ex, o).
Proof. intros I. by apply same_core_ok. Qed.

Lemma internal_begin_invoke_ok ex f try_begin p :
  inv ex -> step_ok ex (internal_begin_invoke ex f try_begin p).
Proof.
  intros I. unfold internal_begin_invoke.
  destruct (allocate_ok ex f out_of_fuel I) as [I1 E1]. norm.
  set (ex1 := set_tasks _ ex) in *.
  eapply (step_ok_trans _ ex1); [done|done|]. intros _.
  repeat case_match; norm.
  - by apply push_ok.
  - by apply owner_destroyed_ok.
  - by apply same_core_ok.
  - by apply same_core_ok.
Qed.

Lemma push_resumed_ok ex f : inv ex -> step_ok ex (push_resumed ex f).
Proof.
  intros I. unfold push_resumed. case_match; [by apply push_ok|by apply step_ok_refl].
Qed.

Lemma try_begin_invoke_ok ex f p : inv ex -> step_ok ex (try_begin_invoke ex f p).
Proof.
  intros I. unfold try_begin_invoke.
  case_match; [by apply step_ok_refl|by apply internal_begin_invoke_ok].
Qed.

Lemma begin_invoke_ok ex f p : inv ex -> step_ok ex (begin_invoke ex f p).
Proof.
  intros I. unfold begin_invoke.
  case_match; [by apply step_ok_refl|by apply internal_begin_invoke_ok].
Qed.

Lemma invoke_ok caller ex f p : inv ex -> step_ok ex (invoke func_call caller ex f p).
Proof.
  intros I. unfold invoke. case_match; [by apply func_call_sound|].
  assert (B := begin_invoke_ok ex f p I).
  destruct (begin_invoke ex f p) as [ex' o]. destruct B as [I' E']. norm.
  repeat case_match; try (by split).
  eapply step_ok_trans; [done|done|]. intros _. by apply future_get_ok.
Qed.

Lemma yield_ok caller ex : inv ex -> step_ok ex (yield O func_call caller ex).
Proof.
  intros I. unfold yield. repeat case_match; try by apply step_ok_refl.
  destruct (push_ok ex t out_of_fuel I) as [I' E']. norm.
  eapply step_ok_trans; [done|done|]. intros _. by apply queued_function_ok.
Qed.

Lemma clear_ok ex o : inv ex -> step_ok ex (clear O ex, o).
Proof. intros I. by apply same_core_ok. Qed.

Lemma destroy_ok caller ex : inv ex -> step_ok ex (destroy func_call caller ex).
Proof.
  intros I. unfold destroy.
  assert (B := internal_begin_invoke_ok ex a_stop_flag false task_priority.normal_priority I).
  destruct (internal_begin_invoke _ _ _ _) as [ex' o]. destruct B as [I' E']. norm.
  assert (L : forall e ex0 o0, inv ex0 -> step_ok ex0 (add_log e ex0, o0))
    by (intros; by apply same_core_ok).
  destruct o as [[[| |fu]|e]| |]; try (by split).
  - assert (W := future_wait_ok caller ex' fu I').
    destruct (future_wait func_call caller ex' fu) as [ex'' o'']. destruct W as [I'' E'']. norm.
    eapply step_ok_trans; [exact I'|done|]. intros _.
    eapply step_ok_trans; [exact I''|done|]. intros _.
    repeat case_match; first [by apply L|by apply step_ok_refl].
  - eapply step_ok_trans; [exact I'|done|]. intros _. by apply L.
Qed.

Lemma do_call_ok caller ex c : inv ex -> step_ok ex (do_call O func_call caller ex c).
Proof.
  intros I. destruct c; simpl.
  - by apply try_begin_invoke_ok.
  - by apply begin_invoke_ok.
  - by apply invoke_ok.
  - by apply yield_ok.
  - by apply same_core_ok.
  - by apply clear_ok.
  - by apply invoke_ok.
  - by apply invoke_ok.
  - by apply future_wait_ok.
  - by apply future_get_ok.
Qed.

Lemma run_ok n ex : inv ex -> step_ok ex (run O func_call n ex).
Proof.
  revert ex. induction n as [|n IH]; intros ex I; simpl; [by apply step_ok_refl|].
  destruct (is_running_ ex); [|by apply step_ok_refl].
  destruct (bq.pop O (execution_queue_ ex)) as [[f q]|]; [|by apply step_ok_refl].
  destruct (push_ok ex q out_of_fuel I) as [I1 E1]. norm.
  eapply step_ok_trans; [exact I1|done|]. intros _.
  assert (Q := queued_function_ok (set_execution_queue_ q ex) (func f) I1).
  unfold priority_function_call.
  destruct (queued_function _ _ _) as [ex' o]. destruct Q as [I' E']. norm.
  destruct o as [[v|e]| |]; try (by split).
  - eapply step_ok_trans; [exact I'|done|]. intros _. by apply IH.
  - assert (L : step_ok ex' (add_log (log_current_exception e) ex', out_of_fuel))
      by (by apply same_core_ok).
    destruct L as [I'' E'']. norm.
    eapply step_ok_trans; [exact I'|done|]. intros _.
    eapply step_ok_trans; [exact I''|done|]. intros _. by apply IH.
Qed.

End calls.

Lemma exec_sound O n : sound (exec O n).
Proof.
  induction n as [|n IH]; intros ex a I; simpl.
  - split; [by apply step_ok_refl|]. intros _ v H. done.
  - destruct a as [v|e| | |c k]; norm.
    + split; [by apply step_ok_refl|done].
    + split; [by apply step_ok_refl|done].
    + split; [by apply step_ok_refl|done].
    + split; [|done]. destruct I as [Io If]. split; [split|split]; norm; try done.
      intros t tk H. exists tk. split_and!; [done|done|by right].
    + split; [|done].
      assert (C := do_call_ok O (exec O n) IH (thread_ ex) ex c I).
      destruct (do_call O (exec O n) (thread_ ex) ex c) as [ex' o]. destruct C as [I' E']. norm.
      destruct o as [[v|e]| |]; try (by split).
      eapply step_ok_trans; [exact I'|done|]. intros _. by apply IH.
Qed.

Lemma new_executor_inv name worker : inv (new_executor name worker).
Proof. split; [intros t; by destruct t|]. intros t tk v H. by destruct t. Qed.

Lemma fire_ok O ex e : inv ex -> inv (fire O ex e) /\ evolves ex (fire O ex e).
Proof.
  intros I. destruct e as [m caller c|f|m caller|m n]; simpl.
  - by apply do_call_ok; [apply exec_sound|].
  - by apply push_resumed_ok.
  - by apply destroy_ok; [apply exec_sound|].
  - by apply run_ok; [apply exec_sound|].
Qed.

Lemma play_ok O es ex : inv ex -> inv (play O ex es) /\ evolves ex (play O ex es).
Proof.
  revert ex. induction es as [|e es IH]; intros ex I; simpl.
  - split; [done|apply evolves_refl].
  - destruct (fire_ok O ex e I) as [I' E']. destruct (IH _ I') as [I'' E''].
    split; [done|]. by eapply evolves_trans.
Qed.

(** ** Submissions to an executor that is not running *)

Lemma is_current_worker ex : is_current ex (thread_ ex) = true.
Proof. apply Nat.eqb_refl. Qed.

Lemma is_current_other ex caller : caller <> thread_ ex -> is_current ex caller = false.
Proof. intros N. by apply Nat.eqb_neq. Qed.

(** Claim C9: the errors raised synchronously by [begin_invoke],
    [try_begin_invoke] and [yield] carry a message and the executor's name.
    On an executor named ["A"], stopped from its own worker thread,
    [begin_invoke] and [yield] (called off the worker thread) attach the name
    to what they throw, while [try_begin_invoke] throws the same
    [invalid_operation] with the message only. *)
Theorem try_begin_invoke_error_has_no_source_info :
  let ex := (stop (exec oldest_first 1) 0 (new_executor "A" 0)).1 in
  let f := a_return 1 in
  let p := task_priority.normal_priority in
  is_running_ ex = false /\
  (begin_invoke ex f p).2 =
    finished (exception (invalid_operation "executor not running." (Some "A"%string))) /\
  (yield oldest_first (exec oldest_first 1) 1 ex).2 =
    finished (exception (invalid_operation
       "Executor can only yield inside of thread context." (Some "A"%string))) /\
  (try_begin_invoke ex f p).2 =
    finished (exception (invalid_operation "executor not running." None)).
Proof. by vm_compute. Qed.

(** With the flag cleared, [try_begin_invoke] and [begin_invoke] throw
    before anything is allocated or queued, and so does [invoke] off the
    worker thread. *)
Lemma try_begin_invoke_not_running ex f p :
  is_running_ ex = false ->
  try_begin_invoke ex f p = throw ex (invalid_operation "executor not running." None).
Proof. unfold try_begin_invoke. by intros ->. Qed.

Lemma begin_invoke_not_running ex f p :
  is_running_ ex = false ->
  begin_invoke ex f p =
  throw ex (invalid_operation "executor not running." (Some (name_ ex))).
Proof. unfold begin_invoke. by intros ->. Qed.

Lemma invoke_not_running func_call caller ex f p :
  is_running_ ex = false -> caller <> thread_ ex ->
  invoke func_call caller ex f p =
  throw ex (invalid_operation "executor not running." (Some (name_ ex))).
Proof.
  intros R N. unfold invoke. rewrite is_current_other by done.
  by rewrite begin_invoke_not_running.
Qed.

Lemma invoke_in_place func_call ex f p :
  invoke func_call (thread_ ex) ex f p = func_call ex f.
Proof. unfold invoke. by rewrite is_current_worker. Qed.

Lemma run_not_running O func_call n ex :
  is_running_ ex = false -> (run O func_call n ex).1 = ex.
Proof. intros R. destruct n; simpl; [done|]. by rewrite R. Qed.

(** Claim C8, as stated, fails for [invoke] on the worker thread: after the
    worker thread has cleared the flag through [stop], its [invoke] of a
    function returning 7 returns 7.  The same inside a run of the worker
    loop: a task whose body calls [stop], then [invoke], then returns 1
    resolves to 1, and would have resolved to the error had [invoke]
    thrown. *)
Lemma invoke_on_worker_ignores_flag :
  let fc := exec oldest_first 3 in
  let ex := (stop fc 0 (new_executor "A" 0)).1 in
  let p := task_priority.normal_priority in
  let body := a_seq c_stop (a_seq (c_invoke (a_return 7) p) (a_return 1)) in
  (is_running_ ex = false /\
   invoke fc 0 ex (a_return 7) p = (ex, finished (value (rv_int 7)))) /\
  (let ex1 := (begin_invoke (new_executor "A" 0) body p).1 in
   let ex2 := (run oldest_first fc 2 ex1).1 in
   is_running_ ex2 = false /\
   status_of ex2 0 = Some (done (value (rv_int 1)))).
Proof. by vm_compute. Qed.

(** Claim C8 (amended): with the running flag false at call time,
    [begin_invoke] and [try_begin_invoke] raise the not-running error to
    every caller, and [invoke] raises it to every caller that is not on the
    worker thread, each leaving the executor as it was, nothing allocated
    and nothing queued; [invoke] on the worker thread runs the function in
    place without consulting the flag. *)
Theorem not_running_raised_synchronously
    (func_call : executor -> action -> executor * outcome)
    (ex : executor) (f : action) (p : task_priority.type) (caller : thread_id) :
  is_running_ ex = false ->
  (exists source,
    try_begin_invoke ex f p =
    (ex, finished (exception (invalid_operation "executor not running." source)))) /\
  begin_invoke ex f p =
    (ex, finished (exception (invalid_operation "executor not running." (Some (name_ ex))))) /\
  (caller <> thread_ ex ->
   invoke func_call caller ex f p =
    (ex, finished (exception (invalid_operation "executor not running." (Some (name_ ex)))))) /\
  invoke func_call (thread_ ex) ex f p = func_call ex f.
Proof.
  intros R. split_and!.
  - eexists. by apply try_begin_invoke_not_running.
  - by apply begin_invoke_not_running.
  - intros N. by apply invoke_not_running.
  - apply invoke_in_place.
Qed.

Lemma not_running_raised_synchronously_witness :
  let ex := (stop (exec oldest_first 1) 0 (new_executor "A" 0)).1 in
  let f := a_return 7 in
  let p := task_priority.high_priority in
  is_running_ ex = false /\
  (try_begin_invoke ex f p).1 = ex /\
  begin_invoke ex f p =
    (ex, finished (exception (invalid_operation "executor not running." (Some "A"%string)))) /\
  invoke (exec oldest_first 1) 1 ex f p =
    (ex, finished (exception (invalid_operation "executor not running." (Some "A"%string)))).
Proof.
  intros ex f p.
  assert (R : is_running_ ex = false) by reflexivity.
  destruct (not_running_raised_synchronously (exec oldest_first 1) ex f p 1 R)
    as ((s & T) & B & I & _).
  split_and!; [done|by rewrite T|exact B|apply I; vm_compute; lia].
Defined.

(** ** Submission and waiting, case by case *)

Lemma try_push_room q x :
  bq.size q < bq.capacity q ->
  bq.try_push q x = Some (bq.mk (bq.items q ++ [x]) (bq.capacity q)).
Proof.
  intros L. unfold bq.try_push. by destruct (Nat.ltb_spec (bq.size q) (bq.capacity q)); [|lia].
Qed.

Lemma try_push_full q x : bq.capacity q <= bq.size q -> bq.try_push q x = None.
Proof.
  intros L. unfold bq.try_push. by destruct (Nat.ltb_spec (bq.size q) (bq.capacity q)); [lia|].
Qed.

Lemma internal_begin_invoke_room ex f try_begin p :
  size ex < capacity ex ->
  internal_begin_invoke ex f try_begin p =
  (submitted ex f p, finished (value (rv_future (future_of (length (tasks ex)))))).
Proof.
  intros L. unfold internal_begin_invoke. norm. by rewrite try_push_room.
Qed.

Lemma owner_destroyed_fresh ex f :
  owner_destroyed (set_tasks (tasks ex ++ [mk_packaged_task f pending]) ex)
                  (length (tasks ex)) =
  set_tasks (tasks ex ++ [mk_packaged_task f (done (exception broken_promise))]) ex.
Proof.
  unfold owner_destroyed, status_of. norm.
  rewrite lookup_app_r by lia. rewrite Nat.sub_diag. simpl.
  unfold set_status. norm.
  by rewrite (alter_app_r_alt _ _ _ (length (tasks ex))), Nat.sub_diag by lia.
Qed.

Lemma internal_begin_invoke_full_try ex f p :
  capacity ex <= size ex ->
  internal_begin_invoke ex f true p =
  (set_tasks (tasks ex ++ [mk_packaged_task f (done (exception broken_promise))]) ex,
   finished (value (rv_future uninitialized))).
Proof.
  intros L. unfold internal_begin_invoke. norm. rewrite try_push_full by done.
  by rewrite <- owner_destroyed_fresh.
Qed.

Lemma internal_begin_invoke_full_block ex f p :
  capacity ex <= size ex ->
  internal_begin_invoke ex f false p =
  (add_log (log_debug (print ex ++ " Overflow. Blocking caller.")%string)
           (set_tasks (tasks ex ++ [mk_packaged_task f pending]) ex),
   blocked (in_push (mk_priority_function (task_priority.value p) (length (tasks ex))))).
Proof.
  intros L. unfold internal_begin_invoke, bq.push. norm. by rewrite try_push_full.
Qed.

Lemma status_of_Some ex t tk : tasks ex !! t = Some tk -> status_of ex t = Some (status tk).
Proof. unfold status_of. by intros ->. Qed.

Section waiting.

Context (func_call : executor -> action -> executor * outcome).

Lemma packaged_task_call_again ex t s :
  status_of ex t = Some s -> s <> pending ->
  packaged_task_call func_call ex t = throw ex task_already_started.
Proof.
  unfold status_of, packaged_task_call. intros H N.
  destruct (tasks ex !! t) as [tk|]; [|done]. injection H as ->.
  by destruct s.
Qed.

Lemma wait_callback_again caller ex t s :
  status_of ex t = Some s -> s <> pending ->
  wait_callback func_call caller ex t = ret ex rv_void.
Proof.
  intros H N. unfold wait_callback.
  destruct (is_current ex caller); [|done].
  by rewrite (packaged_task_call_again _ _ _ H N).
Qed.


Lemma wait_callback_other caller ex t :
  caller <> thread_ ex -> wait_callback func_call caller ex t = ret ex rv_void.
Proof. intros N. unfold wait_callback. by rewrite is_current_other. Qed.

Lemma future_get_done caller ex t r :
  status_of ex t = Some (done r) ->
  future_get func_call caller ex (future_of t) = (ex, finished r).
Proof. intros H. unfold future_get, future_wait. rewrite H. norm. by rewrite H. Qed.

Lemma future_get_started caller ex t :
  status_of ex t = Some started ->
  future_get func_call caller ex (future_of t) = (ex, blocked (in_future_wait t)).
Proof.
  intros H. unfold future_get, future_wait. rewrite H.
  rewrite (wait_callback_again _ _ _ _ H) by done. norm. by rewrite H.
Qed.

Lemma future_get_pending_other caller ex t :
  caller <> thread_ ex -> status_of ex t = Some pending ->
  future_get func_call caller ex (future_of t) = (ex, blocked (in_future_wait t)).
Proof.
  intros N H. unfold future_get, future_wait. rewrite H.
  rewrite wait_callback_other by done. norm. by rewrite H.
Qed.

(** A caller off the worker thread never changes the executor by waiting,
    and gets a result only from a resolved task. *)
Lemma future_get_other caller ex f ex' o :
  caller <> thread_ ex ->
  future_get func_call caller ex f = (ex', o) ->
  ex' = ex /\
  forall v, o = finished (value v) ->
            exists t, f = future_of t /\ status_of ex t = Some (done (value v)).
Proof.
  intros N. destruct f as [t|]; [|by intros [= <- <-]].
  destruct (status_of ex t) as [[| |r]|] eqn:S.
  - rewrite future_get_pending_other by done. by intros [= <- <-].
  - rewrite future_get_started by done. by intros [= <- <-].
  - rewrite (future_get_done _ _ _ r) by done. intros [= <- <-]. split; [done|].
    intros v [= ->]. by exists t.
  - unfold future_get, future_wait. rewrite S, wait_callback_other by done. norm.
    rewrite S. by intros [= <- <-].
Qed.

Lemma status_of_submitted ex f p :
  status_of (submitted ex f p) (length (tasks ex)) = Some pending.
Proof.
  unfold status_of, submitted. norm. rewrite lookup_app_r by lia.
  by rewrite Nat.sub_diag.
Qed.


End waiting.

(** ** Shutdown through [stop] *)





(** ** Backpressure *)

(** Claim C4: with the channel full, [try_begin_invoke] comes back at once
    with the uninitialized handle, which no state of the executor ever
    resolves, and leaves the queue and the log as they were, the task it
    had allocated destroyed without having run; [begin_invoke] logs the
    overflow and suspends the caller in [push] with the queue unchanged,
    and the suspended [push] inserts the entry and hands out the task's
    handle as soon as there is room, and not before.  Neither [begin_invoke]
    nor the resumed [push] ever returns the uninitialized handle. *)
Theorem backpressure (ex : executor) (f : action) (p : task_priority.type) :
  is_running_ ex = true ->
  capacity ex <= size ex ->
  let t := length (tasks ex) in
  let prio_func := mk_priority_function (task_priority.value p) t in
  (exists ex',
      try_begin_invoke ex f p = (ex', finished (value (rv_future uninitialized))) /\
      execution_queue_ ex' = execution_queue_ ex /\
      log ex' = log ex /\
      executed ex' = executed ex /\
      status_of ex' t = Some (done (exception broken_promise)) /\
      forall func_call caller ex'',
        future_get func_call caller ex'' uninitialized =
        (ex'', finished (exception future_uninitialized))) /\
  (exists ex',
      begin_invoke ex f p = (ex', blocked (in_push prio_func)) /\
      execution_queue_ ex' = execution_queue_ ex /\
      log ex' = log ex ++ [log_debug (print ex ++ " Overflow. Blocking caller.")%string] /\
      status_of ex' t = Some pending /\
      forall ex'',
        (capacity ex'' <= size ex'' ->
         push_resumed ex'' prio_func = (ex'', blocked (in_push prio_func))) /\
        (size ex'' < capacity ex'' ->
         push_resumed ex'' prio_func =
         (set_execution_queue_
            (bq.mk (bq.items (execution_queue_ ex'') ++ [prio_func]) (capacity ex'')) ex'',
          finished (value (rv_future (future_of t)))))) /\
  (forall ex0 f0 p0 x,
      (begin_invoke ex0 f0 p0).2 <> finished (value (rv_future uninitialized)) /\
      (push_resumed ex0 x).2 <> finished (value (rv_future uninitialized))).
Proof.
  intros R L t prio_func. split_and!.
  - eexists. unfold try_begin_invoke. rewrite R. simpl.
    rewrite internal_begin_invoke_full_try by done. split_and!; try done.
    unfold status_of. norm. rewrite lookup_app_r by lia. by rewrite Nat.sub_diag.
  - eexists. unfold begin_invoke. rewrite R. simpl.
    rewrite internal_begin_invoke_full_block by done. split_and!; try done.
    + unfold status_of. norm. rewrite lookup_app_r by lia. by rewrite Nat.sub_diag.
    + intros ex''. unfold push_resumed, bq.push. split; intros L'.
      * by rewrite try_push_full.
      * by rewrite try_push_room.
  - intros ex0 f0 p0 x. split.
    + unfold begin_invoke, internal_begin_invoke, bq.push.
      repeat case_match; simpl; congruence.
    + unfold push_resumed. repeat case_match; simpl; congruence.
Qed.

Lemma backpressure_witness :
  let ex := (begin_invoke (set_capacity (new_executor "A" 0) 1) (a_return 1)
                          task_priority.normal_priority).1 in
  let f := a_return 2 in
  let p := task_priority.high_priority in
  let prio_func := mk_priority_function (task_priority.value p) (length (tasks ex)) in
  (is_running_ ex = true /\ capacity ex <= size ex) /\
  try_begin_invoke ex f p =
    (set_tasks (tasks ex ++ [mk_packaged_task f (done (exception broken_promise))]) ex,
     finished (value (rv_future uninitialized))) /\
  (begin_invoke ex f p).2 = blocked (in_push prio_func) /\
  (push_resumed (clear oldest_first (begin_invoke ex f p).1) prio_func).2 =
    finished (value (rv_future (future_of (length (tasks ex))))).
Proof.
  intros ex f p prio_func.
  assert (R : is_running_ ex = true) by reflexivity.
  assert (L : capacity ex <= size ex) by (vm_compute; lia).
  destruct (backpressure ex f p R L) as ((ex1 & T & _) & (ex2 & B & _ & _ & _ & P) & _).
  split_and!; [done|done|reflexivity| |].
  - by rewrite B.
  - rewrite B. simpl. destruct (P (clear oldest_first ex2)) as [_ E].
    unfold prio_func. rewrite E; [done|]. injection B as <-. vm_compute. lia.
Defined.

(** ** Running a task: first attempt and later attempts *)


(** What the first call of a pending task does, whichever path makes it. *)
Lemma packaged_task_call_first O m ex t tk ex' r :
  inv ex ->
  tasks ex !! t = Some tk -> status tk = pending ->
  exec O m (add_executed t (set_status t started ex)) (body tk) = (ex', finished r) ->
  let ex'' := set_status t (done r) ex' in
  packaged_task_call (exec O m) ex t = (ex'', finished (value rv_void)) /\
  inv ex'' /\ evolves ex ex'' /\
  status_of ex'' t = Some (done r) /\ runs ex'' t = 1.
Proof.
  intros I K S R ex''.
  assert (P : packaged_task_call (exec O m) ex t = (ex'', finished (value rv_void))).
  { unfold packaged_task_call. by rewrite K, S, R. }
  assert (Ok := packaged_task_call_ok (exec O m) (exec_sound O m) ex t I).
  rewrite P in Ok. destruct Ok as [I'' E'']. norm.
  assert (St : status_of ex t = Some pending) by (by rewrite (status_of_Some _ _ _ K), S).
  destruct (enter_ok ex t out_of_fuel St I) as [I1 E1]. norm.
  destruct (exec_sound O m _ (body tk) I1) as [[I2 E2] _]. rewrite R in I2, E2. norm.
  destruct (evolves_tasks _ _ E2 t (mk_packaged_task (body tk) started)) as (tk2 & K2 & _ & L2).
  { norm. by rewrite list_lookup_alter_eq, K. }
  assert (S2 : status tk2 = started) by (by destruct L2).
  split_and!; try done.
  - unfold ex''. by rewrite status_of_set_status_eq, (status_of_Some _ _ _ K2).
  - destruct I2 as [Io _]. specialize (Io t).
    rewrite (status_of_Some _ _ _ K2), S2 in Io. exact Io.
Qed.


(** ** Waiting on a handle *)




(** ** Calls made off the worker thread *)

Lemma submitted_lookup ex f p :
  tasks (submitted ex f p) !! length (tasks ex) = Some (mk_packaged_task f pending).
Proof. unfold submitted. norm. rewrite lookup_app_r by lia. by rewrite Nat.sub_diag. Qed.

Lemma submitted_lookup_old ex f p t :
  t < length (tasks ex) -> tasks (submitted ex f p) !! t = tasks ex !! t.
Proof. intros L. unfold submitted. norm. by rewrite lookup_app_l. Qed.

Lemma internal_begin_invoke_runs_nothing ex f try_begin p :
  let r := internal_begin_invoke ex f try_begin p in
  executed r.1 = executed ex /\ is_running_ r.1 = is_running_ ex /\
  thread_ r.1 = thread_ ex /\
  (forall t tk, tasks ex !! t = Some tk -> tasks r.1 !! t = Some tk).
Proof.
  intros r. unfold r. destruct (decide (size ex < capacity ex)) as [L|L].
  - rewrite internal_begin_invoke_room by done. cbn [fst]. split_and!; try done.
    intros t tk K. rewrite submitted_lookup_old; [done|]. by eapply lookup_lt_Some.
  - destruct try_begin.
    + rewrite internal_begin_invoke_full_try by lia. cbn [fst]. split_and!; try done.
      intros t tk K. norm. by apply lookup_app_l_Some.
    + rewrite internal_begin_invoke_full_block by lia. cbn [fst]. split_and!; try done.
      intros t tk K. norm. by apply lookup_app_l_Some.
Qed.

Lemma future_wait_other func_call caller ex f :
  caller <> thread_ ex -> (future_wait func_call caller ex f).1 = ex.
Proof.
  intros N. unfold future_wait. destruct f as [t|]; [|done].
  rewrite wait_callback_other by done. cbn [ret]. by repeat case_match.
Qed.

(** What a call made off the worker thread, or the destructor called
    there, leaves alone. *)
Lemma call_off_worker (O : queue_order)
    (func_call : executor -> action -> executor * outcome)
    (caller : thread_id) (ex : executor) (c : call) :
  caller <> thread_ ex ->
  let r := do_call O func_call caller ex c in
  let d := destroy func_call caller ex in
  (executed r.1 = executed ex /\
   is_running_ r.1 = is_running_ ex /\
   thread_ r.1 = thread_ ex /\
   (forall t tk, tasks ex !! t = Some tk -> tasks r.1 !! t = Some tk) /\
   r = do_call O (fun ex' _ => (ex', out_of_fuel)) caller ex c) /\
  (executed d.1 = executed ex /\
   is_running_ d.1 = is_running_ ex /\
   thread_ d.1 = thread_ ex /\
   (forall t tk, tasks ex !! t = Some tk -> tasks d.1 !! t = Some tk) /\
   d = destroy (fun ex' _ => (ex', out_of_fuel)) caller ex).
Proof.
  intros N r d.
  assert (Inv : forall fc f p,
             let i := invoke fc caller ex f p in
             executed i.1 = executed ex /\ is_running_ i.1 = is_running_ ex /\
             thread_ i.1 = thread_ ex /\
             (forall t tk, tasks ex !! t = Some tk -> tasks i.1 !! t = Some tk) /\
             i = invoke (fun ex' _ => (ex', out_of_fuel)) caller ex f p).
  { intros fc f p i. unfold i, invoke. rewrite is_current_other by done.
    unfold begin_invoke. destruct (negb (is_running_ ex)); [done|].
    destruct (internal_begin_invoke_runs_nothing ex f false p) as (E & R & T & K).
    destruct (internal_begin_invoke ex f false p) as [ex' [[[|z|future]|e]| |]];
      cbn [fst] in *; try done.
    assert (N' : caller <> thread_ ex') by (by rewrite T).
    destruct (future_get fc caller ex' future) as [ex1 o1] eqn:G1.
    destruct (future_get (fun ex' _ => (ex', out_of_fuel)) caller ex' future) as [ex2 o2] eqn:G2.
    destruct (future_get_other _ _ _ _ _ _ N' G1) as [-> _].
    cbn [fst]. split_and!; try done.
    destruct future as [t|].
    - destruct (status_of ex' t) as [[| |res]|] eqn:S.
      + rewrite future_get_pending_other in G1 by done.
        rewrite future_get_pending_other in G2 by done. congruence.
      + rewrite future_get_started in G1 by done.
        rewrite future_get_started in G2 by done. congruence.
      + rewrite (future_get_done _ _ _ _ res) in G1 by done.
        rewrite (future_get_done _ _ _ _ res) in G2 by done. congruence.
      + unfold future_get, future_wait in G1, G2. rewrite S in G1, G2.
        rewrite wait_callback_other in G1 by done.
        rewrite wait_callback_other in G2 by done. congruence.
    - unfold future_get, future_wait in G1, G2. congruence. }
  split.
  - unfold r. destruct c; cbn [do_call].
    + unfold try_begin_invoke. destruct (negb (is_running_ ex)); [done|].
      destruct (internal_begin_invoke_runs_nothing ex f true p) as (E & R & T & K). done.
    + unfold begin_invoke. destruct (negb (is_running_ ex)); [done|].
      destruct (internal_begin_invoke_runs_nothing ex f false p) as (E & R & T & K). done.
    + apply Inv.
    + unfold yield. by rewrite is_current_other.
    + done.
    + done.
    + apply Inv.
    + apply Inv.
    + rewrite future_wait_other by done. split_and!; try done.
      unfold future_wait. destruct f as [t|]; [|done].
      by rewrite !wait_callback_other.
    + destruct (future_get func_call caller ex f) as [ex1 o1] eqn:G1.
      destruct (future_get_other _ _ _ _ _ _ N G1) as [-> _].
      split_and!; try done. rewrite <- G1.
      unfold future_get, future_wait. destruct f as [t|]; [|done].
      by rewrite !wait_callback_other.
  - unfold d, destroy.
    destruct (internal_begin_invoke_runs_nothing ex a_stop_flag false
                task_priority.normal_priority) as (E & R & T & K).
    destruct (internal_begin_invoke ex a_stop_flag false task_priority.normal_priority)
      as [ex' [[[|z|future]|e]| |]]; cbn [fst] in *; try done.
    assert (N' : caller <> thread_ ex') by (by rewrite T).
    assert (W : future_wait func_call caller ex' future =
                future_wait (fun ex' _ => (ex', out_of_fuel)) caller ex' future).
    { unfold future_wait. destruct future as [t|]; [|done]. by rewrite !wait_callback_other. }
    rewrite <- W. assert (F := future_wait_other func_call caller ex' future N').
    destruct (future_wait func_call caller ex' future) as [ex1 [[v|e]| |]];
      cbn [fst] in *; subst ex1; done.
Qed.

(** Once the flag is down, nothing that happens off the worker thread runs
    a body or touches a task. *)
Lemma play_off_worker_stopped O es ex :
  is_running_ ex = false ->
  Forall (off_worker (thread_ ex)) es ->
  let ex' := play O ex es in
  is_running_ ex' = false /\ thread_ ex' = thread_ ex /\
  executed ex' = executed ex /\
  forall t tk, tasks ex !! t = Some tk -> tasks ex' !! t = Some tk.
Proof.
  revert ex. induction es as [|e es IH]; intros ex R F; [done|].
  apply Forall_cons_1 in F as [He F].
  change (play O ex (e :: es)) with (play O (fire O ex e) es). cbv zeta.
  assert (S : is_running_ (fire O ex e) = false /\ thread_ (fire O ex e) = thread_ ex /\
              executed (fire O ex e) = executed ex /\
              forall t tk, tasks ex !! t = Some tk -> tasks (fire O ex e) !! t = Some tk).
  { destruct e as [m caller c|f|m caller|m n]; cbn [fire off_worker] in *.
    - destruct (call_off_worker O (exec O m) caller ex c He) as ((E & R' & T & K & _) & _).
      split_and!; [congruence|done|done|done].
    - unfold push_resumed. by destruct (bq.push (execution_queue_ ex) f).
    - destruct (call_off_worker O (exec O m) caller ex c_clear He) as (_ & (E & R' & T & K & _)).
      split_and!; [congruence|done|done|done].
    - by rewrite run_not_running. }
  destruct S as (R1 & T1 & E1 & K1).
  destruct (IH (fire O ex e) R1) as (R2 & T2 & E2 & K2); [by rewrite T1|].
  split_and!; [done|congruence|congruence|].
  intros t tk K. by apply K2, K1.
Qed.

(** ** At most one execution *)





(** ** Errors thrown by task bodies *)

(** Claim C7: in every state an executor can reach, when the worker loop
    pops the entry of a pending task whose body ends by throwing [e]: the
    call of the entry returns normally with [e] stored in the task's own
    shared state; the loop logs nothing and goes on to its next round; a
    [get] on the task's handle rethrows exactly [e], to every caller, then
    and in every later state; every other task keeps its body, and its
    status if it has left pending; and when the body is the bare throw, the
    flag, the log and every other task are exactly as before. *)
Theorem error_propagation (O : queue_order) (name : string) (worker : thread_id)
    (es : list event) (m n : nat) (f : priority_function) (q : bq.t)
    (tk : packaged_task) (e : error) (ex2 : executor) :
  let ex := play O (new_executor name worker) es in
  let t := func f in
  let ex1 := add_executed t (set_status t started (set_execution_queue_ q ex)) in
  is_running_ ex = true ->
  bq.pop O (execution_queue_ ex) = Some (f, q) ->
  tasks ex !! t = Some tk ->
  status tk = pending ->
  exec O m ex1 (body tk) = (ex2, finished (exception e)) ->
  let ex' := set_status t (done (exception e)) ex2 in
  priority_function_call (exec O m) (set_execution_queue_ q ex) f =
    (ex', finished (value rv_void)) /\
  run O (exec O m) (S n) ex = run O (exec O m) n ex' /\
  (forall es' func_call caller,
      let ex'' := play O ex' es' in
      future_get func_call caller ex'' (future_of t) = (ex'', finished (exception e))) /\
  (forall t' tk', t' <> t -> tasks ex !! t' = Some tk' ->
      exists tk'', tasks ex' !! t' = Some tk'' /\ body tk'' = body tk' /\
                   status_le (status tk') (status tk'')) /\
  (body tk = a_throw e ->
      is_running_ ex' = true /\ log ex' = log ex /\
      forall t', t' <> t -> tasks ex' !! t' = tasks ex !! t').
Proof.
  intros ex t ex1 R P K S X ex'.
  assert (I : inv ex) by apply play_ok, new_executor_inv.
  destruct (push_ok ex q out_of_fuel I) as [I0 E0]. norm.
  set (ex0 := set_execution_queue_ q ex) in *.
  destruct (packaged_task_call_first O m ex0 t tk ex2 (exception e) I0 K S X)
    as (C & I' & E' & D & _).
  fold ex' in C, I', E', D.
  assert (Q : priority_function_call (exec O m) ex0 f = (ex', finished (value rv_void))).
  { unfold priority_function_call, queued_function. fold t. by rewrite C. }
  split_and!.
  - done.
  - simpl. rewrite R, P. fold ex0. by rewrite Q.
  - intros es' func_call caller. apply future_get_done.
    destruct (play_ok O es' ex' I') as [_ E''].
    unfold status_of in D. destruct (tasks ex' !! t) as [tk'|] eqn:K'; [|done].
    destruct (evolves_tasks _ _ E'' t tk' K') as (tk'' & K'' & _ & L).
    rewrite (status_of_Some _ _ _ K''). simpl in D. injection D as D.
    rewrite D in L. destruct L as [L|L]; [done|by rewrite L].
  - intros t' tk' N K'. by apply (evolves_tasks _ _ E').
  - intros B. rewrite B in X. destruct m as [|m]; [done|]. simpl in X.
    injection X as <-. unfold ex', ex1. norm. split_and!; [done|done|].
    intros t' N. by rewrite !list_lookup_alter_ne.
Qed.

Lemma error_propagation_witness :
  let O := oldest_first in
  let normal := task_priority.normal_priority in
  let es := [e_call 1 1 (c_begin_invoke (a_throw (user_error 3)) normal);
             e_call 1 1 (c_begin_invoke (a_return 5) normal)] in
  let ex := play O (new_executor "A" 0) es in
  let f := mk_priority_function 3 0 in
  let q := bq.mk [mk_priority_function 3 1] 512 in
  let ex' := (priority_function_call (exec O 1) (set_execution_queue_ q ex) f).1 in
  (is_running_ ex = true /\ bq.pop O (execution_queue_ ex) = Some (f, q)) /\
  run O (exec O 1) 3 ex = run O (exec O 1) 2 ex' /\
  future_get (exec O 1) 1 ex' (future_of 0) = (ex', finished (exception (user_error 3))) /\
  is_running_ ex' = true /\
  log ex' = log ex /\
  tasks ex' !! 1 = tasks ex !! 1.
Proof.
  intros O normal es ex f q ex'.
  set (tk := mk_packaged_task (a_throw (user_error 3)) pending).
  assert (H1 : is_running_ ex = true) by (vm_compute; reflexivity).
  assert (H2 : bq.pop O (execution_queue_ ex) = Some (f, q)) by (vm_compute; reflexivity).
  assert (H3 : tasks ex !! func f = Some tk) by (vm_compute; reflexivity).
  assert (H4 : status tk = pending) by reflexivity.
  destruct (error_propagation O "A" 0 es 1 2 f q tk (user_error 3) _ H1 H2 H3 H4 eq_refl)
    as (Q & L & G & _ & B).
  destruct (B eq_refl) as (R' & L' & T').
  unfold ex'. clear ex'. unfold ex in *. rewrite Q. cbn [fst].
  split_and!; [done|done|exact L|exact (G [] (exec O 1) 1)|exact R'|exact L'|].
  apply T'. vm_compute. lia.
Defined.

(** ** The worker loop over plain bodies *)

Lemma exec_plain O m ex a :
  plain a = true -> exec O (S m) ex a = (plain_effect a ex, finished (plain_result a)).
Proof. by destruct a. Qed.

Lemma priority_function_call_plain O m ex f tk :
  tasks ex !! func f = Some tk ->
  (status tk = pending -> plain (body tk) = true) ->
  priority_function_call (exec O (S m)) ex f =
  (plain_call ex (func f), finished (value rv_void)).
Proof.
  intros K P. unfold priority_function_call, queued_function, packaged_task_call, plain_call.
  rewrite K. destruct (status tk); [|done|done]. by rewrite exec_plain by auto.
Qed.

Lemma plain_effect_tasks a ex : tasks (plain_effect a ex) = tasks ex.
Proof. by destruct a. Qed.

Lemma plain_effect_queue a ex : execution_queue_ (plain_effect a ex) = execution_queue_ ex.
Proof. by destruct a. Qed.

Lemma plain_effect_executed a ex : executed (plain_effect a ex) = executed ex.
Proof. by destruct a. Qed.

Lemma plain_effect_running a ex :
  is_running_ (plain_effect a ex) =
  match a with a_stop_flag => false | _ => is_running_ ex end.
Proof. by destruct a. Qed.

Lemma plain_call_queue ex t : execution_queue_ (plain_call ex t) = execution_queue_ ex.
Proof.
  unfold plain_call. repeat case_match; try done.
  unfold set_status. cbn [execution_queue_ set_tasks]. by rewrite plain_effect_queue.
Qed.

Lemma plain_call_tasks ex t :
  tasks (plain_call ex t) =
  alter (fun tk => mk_packaged_task (body tk)
                     (match status tk with pending => done (plain_result (body tk)) | s => s end))
        t (tasks ex).
Proof.
  unfold plain_call. destruct (tasks ex !! t) as [tk|] eqn:K.
  - destruct (status tk) eqn:S.
    + unfold set_status. cbn [tasks set_tasks]. rewrite plain_effect_tasks. norm.
      rewrite list_alter_alter_eq. apply list_alter_ext; [|done].
      intros tk' K'. rewrite K in K'. injection K' as <-. simpl. by rewrite S.
    + symmetry. apply list_eq. intros i. destruct (decide (t = i)) as [<-|N].
      * rewrite list_lookup_alter_eq, K. simpl. rewrite S. by destruct tk; simpl in *; subst.
      * by rewrite list_lookup_alter_ne.
    + symmetry. apply list_eq. intros i. destruct (decide (t = i)) as [<-|N].
      * rewrite list_lookup_alter_eq, K. simpl. rewrite S. by destruct tk; simpl in *; subst.
      * by rewrite list_lookup_alter_ne.
  - symmetry. apply list_eq. intros i. destruct (decide (t = i)) as [<-|N].
    + by rewrite list_lookup_alter_eq, K.
    + by rewrite list_lookup_alter_ne.
Qed.

Lemma plain_call_other ex t t' : t <> t' -> tasks (plain_call ex t) !! t' = tasks ex !! t'.
Proof. intros N. by rewrite plain_call_tasks, list_lookup_alter_ne. Qed.

Lemma plain_call_length ex t : length (tasks (plain_call ex t)) = length (tasks ex).
Proof. by rewrite plain_call_tasks, length_alter. Qed.


Lemma plain_call_executed ex t :
  executed (plain_call ex t) =
  executed ex ++ (if is_pending ex t then [t] else []).
Proof.
  unfold plain_call, is_pending, status_of. destruct (tasks ex !! t) as [tk|] eqn:K; simpl.
  - destruct (status tk) eqn:S; [|by rewrite app_nil_r..].
    unfold set_status. cbn [executed set_tasks]. by rewrite plain_effect_executed.
  - by rewrite app_nil_r.
Qed.

Lemma plain_call_running ex t :
  is_running_ (plain_call ex t) =
  match tasks ex !! t with
  | Some (mk_packaged_task a_stop_flag pending) => false
  | _ => is_running_ ex
  end.
Proof.
  unfold plain_call. destruct (tasks ex !! t) as [[a s]|] eqn:K; [|done]. simpl.
  destruct s; [|by destruct a|by destruct a].
  unfold set_status. cbn [is_running_ set_tasks]. rewrite plain_effect_running.
  by destruct a.
Qed.


Lemma calm_plain_call ex t : calm ex -> calm (plain_call ex t).
Proof.
  intros (P & N & B). split_and!.
  - rewrite plain_call_tasks. apply Forall_alter; [done|].
    intros tk _ [Hs Hp]. simpl. by destruct (status tk).
  - by rewrite plain_call_queue.
  - by rewrite plain_call_queue, plain_call_length.
Qed.

Section plain_rounds.

Context (O : queue_order).

Lemma calm_pop ex f q :
  calm ex -> bq.pop O (execution_queue_ ex) = Some (f, q) ->
  calm (set_execution_queue_ q ex) /\
  f ∈ bq.items (execution_queue_ ex) /\
  (forall g, g ∈ bq.items q -> g ∈ bq.items (execution_queue_ ex) /\ func g <> func f) /\
  (forall g, g ∈ bq.items (execution_queue_ ex) -> g = f \/ g ∈ bq.items q).
Proof.
  intros (P & N & B) H.
  assert (Perm := pop_Permutation O _ _ _ H).
  assert (N' : NoDup (func f :: (func <$> bq.items q))).
  { change (NoDup (func <$> f :: bq.items q)). by rewrite <- Perm. }
  apply NoDup_cons in N' as [Nf Nq].
  split_and!.
  - split_and!; norm; [done|done|].
    rewrite Perm in B. by apply Forall_cons_1 in B as [_ B].
  - rewrite Perm. left.
  - intros g Hg. split; [rewrite Perm; by right|].
    intros E. apply Nf. rewrite <- E. by apply list_elem_of_fmap_2.
  - intros g Hg. rewrite Perm in Hg. by apply elem_of_cons in Hg.
Qed.

(** One round of the loop from a calm state. *)
Lemma run_calm_step m n ex f q :
  calm ex -> is_running_ ex = true ->
  bq.pop O (execution_queue_ ex) = Some (f, q) ->
  run O (exec O (S m)) (S n) ex =
  run O (exec O (S m)) n (plain_call (set_execution_queue_ q ex) (func f)).
Proof.
  intros C R H. destruct (calm_pop ex f q C H) as (_ & Hf & _).
  destruct C as (P & _ & B).
  rewrite Forall_forall in B. specialize (B f Hf).
  destruct (lookup_lt_is_Some_2 _ _ B) as [tk K].
  assert (Hp : status tk = pending -> plain (body tk) = true).
  { rewrite Forall_forall in P. apply P. by eapply list_elem_of_lookup_2. }
  cbn [run]. rewrite R, H.
  by rewrite (priority_function_call_plain O m (set_execution_queue_ q ex) f tk K Hp).
Qed.

(** What holds before the loop and is kept by every round holds of the
    state the loop is left in, however it is left. *)
Lemma run_calm_invariant (J : executor -> Prop) m n ex :
  (forall ex f q,
      calm ex -> J ex -> is_running_ ex = true ->
      bq.pop O (execution_queue_ ex) = Some (f, q) ->
      J (plain_call (set_execution_queue_ q ex) (func f))) ->
  calm ex -> J ex ->
  calm (run O (exec O (S m)) n ex).1 /\ J (run O (exec O (S m)) n ex).1.
Proof.
  intros Step. revert ex. induction n as [|n IH]; intros ex C Hj; [done|].
  destruct (is_running_ ex) eqn:R; [|by cbn [run]; rewrite R].
  destruct (bq.pop O (execution_queue_ ex)) as [[f q]|] eqn:H;
    [|by cbn [run]; rewrite R, H].
  rewrite (run_calm_step m n ex f q C R H). apply IH.
  - apply calm_plain_call. by apply (calm_pop ex f q).
  - by apply Step.
Qed.

End plain_rounds.

(** ** Destruction *)

Lemma submitted_calm ex f p :
  calm ex -> plain f = true -> calm (submitted ex f p).
Proof.
  intros (P & N & B) Hf. unfold submitted. split_and!; norm; cbn [bq.items].
  - apply Forall_app. split; [done|]. by repeat constructor.
  - rewrite fmap_app. simpl. apply NoDup_app. split_and!; [done| |apply NoDup_singleton].
    intros t Ht ->%list_elem_of_singleton.
    apply list_elem_of_fmap in Ht as (g & E & Hg).
    rewrite Forall_forall in B. specialize (B g Hg). simpl in E. lia.
  - rewrite length_app. simpl. apply Forall_app. split.
    + eapply Forall_impl; [done|]. simpl. intros; lia.
    + repeat constructor. simpl. lia.
Qed.


Section shutdown.

Context (O : queue_order) (l : priority_function) (s : task_id)
        (lk : option packaged_task) (ln : nat).




End shutdown.




(** ** The drain barrier *)



Section drain.

Context (O : queue_order) (ex0 : executor) (marker : priority_function).

Hypothesis marker_lowest :
  priority marker = task_priority.value task_priority.lowest_priority.



End drain.




(** ** Priority order of the worker loop *)

Lemma returns_or_throws_plain a : returns_or_throws a = true -> plain a = true.
Proof. by destruct a. Qed.

Lemma begin_invoke_room ex f p :
  is_running_ ex = true -> size ex < capacity ex ->
  begin_invoke ex f p =
  (submitted ex f p, finished (value (rv_future (future_of (length (tasks ex)))))).
Proof.
  intros R L. unfold begin_invoke. rewrite R. simpl. by apply internal_begin_invoke_room.
Qed.

Lemma submitted_ready ex f p :
  ready ex -> returns_or_throws f = true -> ready (submitted ex f p).
Proof.
  intros (C & R & Q) Hf. split_and!.
  - apply (submitted_calm ex f p); [done|by apply returns_or_throws_plain].
  - done.
  - intros g Hg. unfold submitted in Hg. norm. cbn [bq.items] in Hg.
    apply elem_of_app in Hg as [Hg|Hg].
    + destruct (Q g Hg) as (tk & K & S & B). exists tk. split_and!; [|done|done].
      rewrite submitted_lookup_old; [done|]. by eapply lookup_lt_Some.
    + apply list_elem_of_singleton in Hg as ->.
      exists (mk_packaged_task f pending).
      split_and!; [exact (submitted_lookup ex f p)|done|done].
Qed.

Lemma submit_all_ready subs ex :
  ready ex ->
  size ex + length subs <= capacity ex ->
  Forall (fun sub => returns_or_throws sub.1 = true) subs ->
  let ex' := submit_all ex subs in
  ready ex' /\
  bq.items (execution_queue_ ex') =
    bq.items (execution_queue_ ex) ++ imap (entry_of (length (tasks ex))) subs /\
  executed ex' = executed ex.
Proof.
  revert ex. induction subs as [|[f p] subs IH]; intros ex Rd L F; simpl.
  - split_and!; [done|by rewrite app_nil_r|done].
  - apply Forall_cons_1 in F as [Hf F]. simpl in Hf, L.
    destruct Rd as (C & R & Q).
    rewrite begin_invoke_room by (done || lia). cbn [fst].
    destruct (IH (submitted ex f p)) as (Rd' & I' & E'); [by apply submitted_ready| |done|].
    { unfold size, capacity, submitted in *. norm. unfold bq.size in *. cbn [bq.items bq.capacity].
      rewrite length_app. simpl. lia. }
    split_and!; [done| |done].
    rewrite I'. unfold submitted. norm. cbn [bq.items]. rewrite <- app_assoc. f_equal.
    simpl. f_equal.
    + unfold entry_of. simpl. by rewrite Nat.add_0_r.
    + rewrite length_app. simpl. apply imap_ext. intros i x _. unfold entry_of. simpl.
      f_equal. lia.
Qed.

Lemma new_executor_ready name worker : ready (new_executor name worker).
Proof.
  split_and!; [|done|].
  - split_and!; simpl; [constructor|constructor|constructor].
  - simpl. intros f Hf. by apply elem_of_nil in Hf.
Qed.

Section drains.

Context (O : queue_order).

Lemma ready_step ex f q :
  ready ex -> bq.pop O (execution_queue_ ex) = Some (f, q) ->
  let ex' := plain_call (set_execution_queue_ q ex) (func f) in
  ready ex' /\ executed ex' = executed ex ++ [func f] /\ execution_queue_ ex' = q.
Proof.
  intros (C & R & Q) H ex'.
  destruct (calm_pop O ex f q C H) as (Cq & Hf & Hq & _).
  destruct (Q f Hf) as (tk & K & S & B).
  split_and!.
  - split_and!.
    + by apply calm_plain_call.
    + unfold ex'. rewrite plain_call_running. norm. rewrite K.
      destruct tk as [a s]. simpl in *. by destruct a, s.
    + intros g Hg. unfold ex' in Hg. rewrite plain_call_queue in Hg. norm.
      destruct (Hq g Hg) as [Hg' N]. destruct (Q g Hg') as (tk' & K' & S' & B').
      exists tk'. split_and!; [|done|done]. unfold ex'. by rewrite plain_call_other.
  - unfold ex'. rewrite plain_call_executed. unfold is_pending, status_of. norm.
    rewrite K. simpl. by rewrite S.
  - unfold ex'. by rewrite plain_call_queue.
Qed.

(** From a ready state the loop empties the queue, entering the bodies in
    the order the channel hands the entries out, and then waits in [pop]. *)
Lemma run_drains m n ex :
  ready ex -> size ex < n ->
  let r := run O (exec O (S m)) n ex in
  r.2 = blocked in_pop /\
  executed r.1 = executed ex ++ (func <$> dequeue_all O (size ex) (execution_queue_ ex)).
Proof.
  revert ex. induction n as [|n IH]; intros ex Rd L; [lia|].
  assert (R : is_running_ ex = true) by apply Rd.
  destruct (bq.pop O (execution_queue_ ex)) as [[f q]|] eqn:H.
  - rewrite (run_calm_step O m n ex f q (proj1 Rd) R H).
    destruct (ready_step ex f q Rd H) as (Rd' & E' & Q').
    assert (Sz : size ex = S (bq.size q)) by (by apply pop_size in H).
    destruct (IH _ Rd') as [B E].
    { unfold size. rewrite Q'. lia. }
    split; [done|]. rewrite E, E'. unfold size at 1. rewrite Q', Sz. simpl.
    rewrite H. simpl. by rewrite <- app_assoc.
  - cbn [run]. rewrite R, H. split; [done|]. simpl.
    apply pop_None in H. unfold size, bq.size. rewrite H. simpl. by rewrite app_nil_r.
Qed.

End drains.

(** Claim C1: whatever order the channel keeps among equals, [pop] never
    hands out an entry while one of strictly higher priority is queued;
    entries pushed in any sequence come out of the channel as a
    rearrangement of that sequence in non-increasing priority; and after any
    sequence of submissions to a fresh executor, of bodies that return or
    throw, the worker loop enters the bodies in exactly the order the
    channel hands their entries out, which is a rearrangement of the
    submissions in non-increasing priority, and then waits for more.  Among
    equal priorities the order is the channel's: oldest first and newest
    first are both possible. *)
Theorem dequeue_order_by_priority (O : queue_order) :
  (forall q x q', bq.pop O q = Some (x, q') ->
     forall y, y ∈ bq.items q -> (priority y <= priority x)%Z) /\
  (forall cap xs, length xs <= cap ->
     exists q, push_all (bq.mk [] cap) xs = Some q /\
       let out := dequeue_all O (length xs) q in
       out ≡ₚ xs /\ StronglySorted priority_ge out) /\
  (forall name worker subs m,
     length subs <= 512 ->
     Forall (fun sub => returns_or_throws sub.1 = true) subs ->
     let ex := submit_all (new_executor name worker) subs in
     let r := run O (exec O (S m)) (S (length subs)) ex in
     let out := dequeue_all O (length subs) (execution_queue_ ex) in
     bq.items (execution_queue_ ex) = imap (entry_of 0) subs /\
     r.2 = blocked in_pop /\
     executed r.1 = func <$> out /\
     out ≡ₚ imap (entry_of 0) subs /\
     StronglySorted priority_ge out) /\
  (let xs := [mk_priority_function 3 0; mk_priority_function 3 1] in
   dequeue_all oldest_first 2 (bq.mk xs 512) = xs /\
   dequeue_all newest_first 2 (bq.mk xs 512) = reverse xs).
Proof.
  split_and!.
  - intros q x q' H y Hy. assert (Hmax := pop_highest O _ _ _ H).
    rewrite Forall_forall in Hmax. by apply Hmax.
  - intros cap xs L.
    destruct (push_all_items (bq.mk [] cap) xs) as (q & P & I & _); [by simpl|].
    exists q. split; [done|]. simpl in I. split.
    + rewrite <- I. apply dequeue_all_Permutation. unfold bq.size. by rewrite I.
    + apply dequeue_all_sorted.
  - intros name worker subs m L F ex r out.
    destruct (submit_all_ready subs (new_executor name worker)) as (Rd & I & E);
      [apply new_executor_ready|by simpl|done|].
    fold ex in Rd, I, E. simpl in I, E.
    assert (Sz : size ex = length subs).
    { unfold size, bq.size. by rewrite I, length_imap. }
    destruct (run_drains O m (S (length subs)) ex Rd) as [B X]; [lia|].
    split_and!; [done|done| | |].
    + unfold r, out. by rewrite X, E, Sz.
    + unfold out. rewrite <- I. apply dequeue_all_Permutation. unfold size in Sz. lia.
    + apply dequeue_all_sorted.
  - by vm_compute.
Qed.

Lemma dequeue_order_by_priority_witness :
  let O := newest_first in
  let low := task_priority.low_priority in
  let high := task_priority.high_priority in
  let subs := [(a_return 1, low); (a_throw (user_error 2), high); (a_skip, low);
               (a_return 4, task_priority.higher_priority)] in
  let ex := submit_all (new_executor "A" 0) subs in
  let r := run O (exec O 1) 5 ex in
  bq.pop O (execution_queue_ ex) =
    Some (mk_priority_function 5 3,
          bq.mk [mk_priority_function 2 0; mk_priority_function 4 1;
                 mk_priority_function 2 2] 512) /\
  r.2 = blocked in_pop /\
  executed r.1 = [3; 1; 2; 0] /\
  StronglySorted priority_ge (dequeue_all O 4 (execution_queue_ ex)).
Proof.
  intros O low high subs ex r.
  destruct (dequeue_order_by_priority O) as (_ & _ & E & _).
  destruct (E "A"%string 0 subs 0) as (_ & B & X & _ & S).
  - vm_compute. lia.
  - repeat constructor.
  - split_and!; [reflexivity|exact B|exact X|exact S].
Defined.

(** * Further properties *)

(** ** The comparison of queue entries *)

(** Property X1: [priority_function::operator<] is a strict weak ordering
    that looks at the priority only: it is irreflexive, asymmetric and
    transitive, being unordered is transitive, and two entries of the same
    priority are never ordered, whatever they run. *)
Theorem priority_function_lt_strict_weak_order :
  (forall a, priority_function_lt a a = false) /\
  (forall a b, priority_function_lt a b = true -> priority_function_lt b a = false) /\
  (forall a b c, priority_function_lt a b = true -> priority_function_lt b c = true ->
                 priority_function_lt a c = true) /\
  (forall a b c,
      priority_function_lt a b = false -> priority_function_lt b a = false ->
      priority_function_lt b c = false -> priority_function_lt c b = false ->
      priority_function_lt a c = false /\ priority_function_lt c a = false) /\
  (forall a b, priority a = priority b <->
               priority_function_lt a b = false /\ priority_function_lt b a = false).
Proof.
  unfold priority_function_lt. split_and!.
  - intros a. apply Z.ltb_irrefl.
  - intros a b H%Z.ltb_lt. apply Z.ltb_ge. lia.
  - intros a b c H1%Z.ltb_lt H2%Z.ltb_lt. apply Z.ltb_lt. lia.
  - intros a b c H1%Z.ltb_ge H2%Z.ltb_ge H3%Z.ltb_ge H4%Z.ltb_ge.
    split; apply Z.ltb_ge; lia.
  - intros a b. rewrite !Z.ltb_ge. lia.
Qed.

(** ** [clear] *)

Lemma clear_loop_capacity O n q : bq.capacity (clear_loop O n q) = bq.capacity q.
Proof.
  revert q. induction n as [|n IH]; intros q; simpl; [done|].
  unfold bq.try_pop. destruct (bq.items q !! select O (bq.items q)); [|done].
  by rewrite IH.
Qed.

(** Property X2: [clear] empties the queue and does nothing else: no body
    runs, no task is resolved or destroyed, the capacity, the flag and the
    log stay.  So the handle of a dropped task is left unresolved: right
    after [clear], a [get] on a task that was pending blocks every caller
    off the worker thread, and the worker loop, if still running, finds
    nothing to pop. *)
Theorem clear_drops_tasks_unrun (O : queue_order)
    (func_call : executor -> action -> executor * outcome) (ex : executor) :
  let ex' := clear O ex in
  size ex' = 0 /\
  capacity ex' = capacity ex /\
  tasks ex' = tasks ex /\
  executed ex' = executed ex /\
  is_running_ ex' = is_running_ ex /\
  log ex' = log ex /\
  (forall caller t, caller <> thread_ ex -> status_of ex t = Some pending ->
     future_get func_call caller ex' (future_of t) = (ex', blocked (in_future_wait t))) /\
  (forall n, is_running_ ex = true -> run O func_call (S n) ex' = (ex', blocked in_pop)).
Proof.
  intros ex'.
  assert (E : bq.items (execution_queue_ ex') = []).
  { unfold ex', clear. norm. by apply clear_loop_empties. }
  split_and!; try done.
  - unfold size, bq.size. by rewrite E.
  - unfold capacity, ex', clear. norm. apply clear_loop_capacity.
  - intros caller t N S. by apply future_get_pending_other.
  - intros n R. cbn [run]. change (is_running_ ex') with (is_running_ ex). rewrite R.
    apply (pop_None O) in E. by rewrite E.
Qed.

(** ** The constructor *)

Lemma submit_all_room subs ex :
  is_running_ ex = true ->
  size ex + length subs <= capacity ex ->
  let ex' := submit_all ex subs in
  size ex' = size ex + length subs /\
  capacity ex' = capacity ex /\
  is_running_ ex' = true /\
  length (tasks ex') = length (tasks ex) + length subs /\
  executed ex' = executed ex.
Proof.
  revert ex. induction subs as [|[f p] subs IH]; intros ex R L; simpl.
  - split_and!; (done || lia).
  - simpl in L. rewrite begin_invoke_room by (done || lia). cbn [fst].
    assert (S1 : size (submitted ex f p) = S (size ex)).
    { unfold size, bq.size, submitted. norm. cbn [bq.items]. rewrite length_app. simpl. lia. }
    assert (T1 : length (tasks (submitted ex f p)) = S (length (tasks ex))).
    { unfold submitted. norm. rewrite length_app. simpl. lia. }
    destruct (IH (submitted ex f p)) as (S' & C' & R' & T' & E'); [done| |].
    { rewrite S1. change (capacity (submitted ex f p)) with (capacity ex). lia. }
    rewrite S', C', T', S1, T1. split_and!; (done || lia).
Qed.

(** Property X3: a new executor is running, has nothing queued and no task
    allocated, a capacity of 512, and its worker thread as the only current
    thread.  With the worker not yet popping, it takes 512 submissions
    without blocking; the next [try_begin_invoke] comes back with the
    uninitialized handle and the next [begin_invoke] is suspended. *)
Theorem new_executor_initial_state (name : string) (worker : thread_id) :
  let ex := new_executor name worker in
  is_running ex = true /\
  size ex = 0 /\
  capacity ex = 512 /\
  tasks ex = [] /\
  print ex = ("executor[" ++ name ++ "]")%string /\
  (forall caller, is_current ex caller = true <-> caller = worker) /\
  (forall subs f p, length subs = 512 ->
     let ex' := submit_all ex subs in
     size ex' = 512 /\
     is_running ex' = true /\
     executed ex' = [] /\
     (try_begin_invoke ex' f p).2 = finished (value (rv_future uninitialized)) /\
     exists w, (begin_invoke ex' f p).2 = blocked w).
Proof.
  intros ex. split_and!; try done.
  - intros caller. unfold is_current. simpl. apply Nat.eqb_eq.
  - intros subs f p L ex'.
    destruct (submit_all_room subs ex) as (S & C & R & _ & E);
      [done|change (0 + length subs <= 512); lia|].
    fold ex' in S, C, R, E. change (size ex) with 0 in S. change (capacity ex) with 512 in C.
    change (executed ex) with (@nil nat) in E. rewrite L in S. simpl in S.
    assert (F : capacity ex' <= size ex') by lia.
    split_and!; [done|done|done| |].
    + unfold try_begin_invoke. rewrite R. simpl.
      by rewrite internal_begin_invoke_full_try.
    + unfold begin_invoke. rewrite R. simpl.
      rewrite internal_begin_invoke_full_block by done. by eexists.
Qed.

(** ** Submission without blocking *)

(** Property X4: [try_begin_invoke] always comes back at once, in one of
    three ways: with the not-running error and the executor untouched; with
    the handle of a new pending task, queued last, when there is room; or,
    when there is none, with the uninitialized handle and the queue as it
    was.  It changes neither the flag nor the capacity, runs nothing, and
    never fills the queue beyond its capacity. *)
Theorem try_begin_invoke_never_blocks (ex : executor) (f : action)
    (p : task_priority.type) :
  let r := try_begin_invoke ex f p in
  let t := length (tasks ex) in
  ((is_running_ ex = false /\
    r = (ex, finished (exception (invalid_operation "executor not running." None)))) \/
   (is_running_ ex = true /\ size ex < capacity ex /\
    r = (submitted ex f p, finished (value (rv_future (future_of t)))) /\
    bq.items (execution_queue_ r.1) =
      bq.items (execution_queue_ ex) ++ [mk_priority_function (task_priority.value p) t] /\
    status_of r.1 t = Some pending) \/
   (is_running_ ex = true /\ capacity ex <= size ex /\
    r.2 = finished (value (rv_future uninitialized)) /\
    execution_queue_ r.1 = execution_queue_ ex)) /\
  (exists res, r.2 = finished res) /\
  is_running_ r.1 = is_running_ ex /\
  capacity r.1 = capacity ex /\
  executed r.1 = executed ex /\
  (size ex <= capacity ex -> size r.1 <= capacity r.1).
Proof.
  intros r t. unfold r, try_begin_invoke.
  destruct (is_running_ ex) eqn:R; simpl.
  - destruct (decide (size ex < capacity ex)) as [L|L].
    + rewrite internal_begin_invoke_room by done. cbn [fst snd]. split_and!.
      * right; left. split_and!; try done. apply status_of_submitted.
      * by eexists.
      * done.
      * done.
      * done.
      * intros _. unfold size, capacity, bq.size, submitted in *. norm.
        cbn [bq.items bq.capacity]. rewrite length_app. simpl. lia.
    + rewrite internal_begin_invoke_full_try by lia. cbn [fst snd]. split_and!.
      * right; right. split_and!; (done || lia).
      * by eexists.
      * done.
      * done.
      * done.
      * done.
  - split_and!; try done.
    + by left.
    + by eexists.
Qed.

(** ** Capacity *)

(** Property X5: [set_capacity] changes the capacity the next submission is
    checked against and nothing else: what is queued stays queued, also
    beyond a lowered capacity, [capacity] reads the new value back and
    [size] the old one.  A submission to the running executor then finds
    room exactly when [size] is below the new capacity. *)
Theorem set_capacity_takes_effect (ex : executor) (n : nat) (f : action)
    (p : task_priority.type) :
  is_running_ ex = true ->
  let ex' := set_capacity ex n in
  let t := length (tasks ex) in
  capacity ex' = n /\
  size ex' = size ex /\
  bq.items (execution_queue_ ex') = bq.items (execution_queue_ ex) /\
  same_core ex ex' /\
  (size ex < n ->
   (try_begin_invoke ex' f p).2 = finished (value (rv_future (future_of t))) /\
   (begin_invoke ex' f p).2 = finished (value (rv_future (future_of t))) /\
   size (begin_invoke ex' f p).1 = S (size ex)) /\
  (n <= size ex ->
   (try_begin_invoke ex' f p).2 = finished (value (rv_future uninitialized)) /\
   (begin_invoke ex' f p).2 =
     blocked (in_push (mk_priority_function (task_priority.value p) t)) /\
   size (begin_invoke ex' f p).1 = size ex).
Proof.
  intros R ex' t.
  assert (C : capacity ex' = n) by done.
  assert (S : size ex' = size ex) by done.
  split_and!; try done.
  - intros L. unfold try_begin_invoke, begin_invoke.
    change (is_running_ ex') with (is_running_ ex). rewrite R. simpl.
    rewrite !internal_begin_invoke_room by (rewrite C, S; lia). cbn [fst snd].
    split_and!; [done|done|].
    unfold size, bq.size, submitted. norm. cbn [bq.items]. rewrite length_app. simpl.
    unfold size, bq.size in *. lia.
  - intros L. unfold try_begin_invoke, begin_invoke.
    change (is_running_ ex') with (is_running_ ex). rewrite R. simpl.
    rewrite internal_begin_invoke_full_try by (rewrite C, S; lia).
    rewrite internal_begin_invoke_full_block by (rewrite C, S; lia).
    done.
Qed.

Lemma set_capacity_takes_effect_witness :
  let ex := submit_all (new_executor "A" 0)
              [(a_return 1, task_priority.low_priority);
               (a_return 2, task_priority.high_priority)] in
  let ex' := set_capacity ex 1 in
  capacity ex' = 1 /\ size ex' = 2 /\
  (try_begin_invoke ex' a_skip task_priority.high_priority).2 =
    finished (value (rv_future uninitialized)) /\
  (try_begin_invoke (set_capacity ex' 3) a_skip task_priority.high_priority).2 =
    finished (value (rv_future (future_of 2))).
Proof.
  intros ex ex'.
  destruct (set_capacity_takes_effect ex 1 a_skip task_priority.high_priority eq_refl)
    as (C & S & _ & _ & _ & F).
  destruct (set_capacity_takes_effect ex' 3 a_skip task_priority.high_priority eq_refl)
    as (_ & _ & _ & _ & G & _).
  split_and!; [exact C|exact S|apply F; vm_compute; lia|apply G; vm_compute; lia].
Defined.

(** ** [yield] *)

(** Property X6: [yield] with nothing to do.  Called off the worker thread
    it throws [invalid_operation] with its message and the executor's name,
    whatever is queued, and touches nothing; called on the worker thread
    with an empty queue it returns at once, where the loop's [pop] would
    wait, and touches nothing either. *)
Theorem yield_without_work (O : queue_order)
    (func_call : executor -> action -> executor * outcome)
    (caller : thread_id) (ex : executor) :
  (caller <> thread_ ex ->
   yield O func_call caller ex =
   (ex, finished (exception (invalid_operation
          "Executor can only yield inside of thread context." (Some (name_ ex)))))) /\
  (size ex = 0 ->
   yield O func_call (thread_ ex) ex = (ex, finished (value rv_void)) /\
   forall n, is_running_ ex = true -> run O func_call (S n) ex = (ex, blocked in_pop)).
Proof.
  split.
  - intros N. unfold yield. by rewrite is_current_other.
  - intros Z. assert (E : bq.items (execution_queue_ ex) = []).
    { unfold size, bq.size in Z. by destruct (bq.items (execution_queue_ ex)). }
    apply (pop_None O) in E. split.
    + unfold yield. rewrite is_current_worker. simpl.
      change (bq.try_pop O (execution_queue_ ex)) with (bq.pop O (execution_queue_ ex)).
      by rewrite E.
    + intros n R. cbn [run]. by rewrite R, E.
Qed.



(** ** What the worker loop logs *)

Lemma tidy_refl ex : tidy ex ex.
Proof. intros A. split; [done|]. exists []. by rewrite app_nil_r. Qed.

Lemma tidy_trans ex1 ex2 ex3 : tidy ex1 ex2 -> tidy ex2 ex3 -> tidy ex1 ex3.
Proof.
  intros T1 T2 A1. destruct (T1 A1) as (A2 & l1 & E1 & F1).
  destruct (T2 A2) as (A3 & l2 & E2 & F2). split; [done|].
  exists (l1 ++ l2). split; [by rewrite E2, E1, app_assoc|by apply Forall_app].
Qed.

(** A change that queues nothing new, frees no task and logs nothing. *)
Lemma tidy_shrink ex ex' :
  bq.items (execution_queue_ ex') ⊆ bq.items (execution_queue_ ex) ->
  length (tasks ex) <= length (tasks ex') ->
  log ex' = log ex ->
  tidy ex ex'.
Proof.
  intros Q L E A. split.
  - unfold allocated in *. rewrite Forall_forall in *. intros f Hf.
    specialize (A f (Q f Hf)). lia.
  - exists []. by rewrite app_nil_r.
Qed.

Lemma set_status_tidy ex t s : tidy ex (set_status t s ex).
Proof. apply tidy_shrink; [done| |done]. unfold set_status. norm. by rewrite length_alter. Qed.

Lemma owner_destroyed_tidy ex t : tidy ex (owner_destroyed ex t).
Proof.
  unfold owner_destroyed. repeat case_match; try apply tidy_refl. apply set_status_tidy.
Qed.

Lemma pop_tidy O ex f q :
  bq.try_pop O (execution_queue_ ex) = Some (f, q) ->
  tidy ex (set_execution_queue_ q ex) /\ f ∈ bq.items (execution_queue_ ex).
Proof.
  intros H. change (bq.try_pop O (execution_queue_ ex)) with (bq.pop O (execution_queue_ ex)) in H.
  assert (P := pop_Permutation O _ _ _ H). split.
  - apply tidy_shrink; [|done|done]. norm. intros g Hg. rewrite P. by right.
  - rewrite P. left.
Qed.

Lemma internal_begin_invoke_tidy ex f try_begin p :
  tidy ex (internal_begin_invoke ex f try_begin p).1.
Proof.
  destruct (decide (size ex < capacity ex)) as [L|L].
  - rewrite internal_begin_invoke_room by done. cbn [fst]. intros A. split.
    + unfold allocated, submitted in *. norm. cbn [bq.items]. rewrite length_app. simpl.
      apply Forall_app. split.
      * eapply Forall_impl; [done|]. simpl. intros; lia.
      * repeat constructor. simpl. lia.
    + exists []. by rewrite app_nil_r.
  - destruct try_begin.
    + rewrite internal_begin_invoke_full_try by lia. cbn [fst].
      apply tidy_shrink; [done| |done]. norm. rewrite length_app. lia.
    + rewrite internal_begin_invoke_full_block by lia. cbn [fst]. intros A. split.
      * unfold allocated in *. norm. rewrite length_app.
        eapply Forall_impl; [done|]. simpl. intros; lia.
      * eexists [_]. norm. split; [done|]. by repeat constructor.
Qed.

Lemma clear_loop_subseteq O n q : bq.items (clear_loop O n q) ⊆ bq.items q.
Proof.
  revert q. induction n as [|n IH]; intros q; simpl; [done|].
  destruct (bq.try_pop O q) as [[x q']|] eqn:H; [|done].
  change (bq.try_pop O q) with (bq.pop O q) in H.
  intros g Hg%IH. rewrite (pop_Permutation O _ _ _ H). by right.
Qed.

Section tidy_steps.

Context (O : queue_order) (func_call : executor -> action -> executor * outcome).
Hypothesis func_call_tidy : tidy_calls func_call.

Lemma packaged_task_call_tidy ex t : tidy ex (packaged_task_call func_call ex t).1.
Proof.
  unfold packaged_task_call. destruct (tasks ex !! t) as [tk|]; [|apply tidy_refl].
  destruct (status tk); [|apply tidy_refl..].
  set (ex1 := add_executed t (set_status t started ex)).
  assert (T1 : tidy ex ex1).
  { eapply tidy_trans; [apply (set_status_tidy ex t started)|]. by apply tidy_shrink. }
  assert (T2 := func_call_tidy ex1 (body tk)).
  destruct (func_call ex1 (body tk)) as [ex' [r| |]]; cbn [fst ret] in *.
  - eapply tidy_trans; [done|]. eapply tidy_trans; [done|]. apply set_status_tidy.
  - by eapply tidy_trans.
  - by eapply tidy_trans.
Qed.

(** Calling a packaged task throws only the two errors of the futures
    library, and [task_moved] only when there is no such task. *)
Lemma packaged_task_call_throws ex t e :
  (packaged_task_call func_call ex t).2 = finished (exception e) ->
  e = task_already_started \/ length (tasks ex) <= t.
Proof.
  unfold packaged_task_call. destruct (tasks ex !! t) as [tk|] eqn:K.
  - destruct (status tk).
    + by destruct (func_call _ _) as [ex' [r| |]].
    + intros [= <-]. by left.
    + intros [= <-]. by left.
  - intros _. right. by apply lookup_ge_None.
Qed.

Lemma queued_function_tidy ex t : tidy ex (queued_function func_call ex t).1.
Proof.
  unfold queued_function. rewrite catch_task_already_started_fst.
  apply packaged_task_call_tidy.
Qed.

Lemma queued_function_returns ex t e :
  t < length (tasks ex) ->
  (queued_function func_call ex t).2 <> finished (exception e).
Proof.
  intros L. unfold queued_function.
  assert (T := packaged_task_call_throws ex t).
  destruct (packaged_task_call func_call ex t) as [ex' [[v|e']| |]]; try done.
  simpl in T. destruct (T e' eq_refl) as [->|]; [done|lia].
Qed.

Lemma wait_callback_tidy caller ex t : tidy ex (wait_callback func_call caller ex t).1.
Proof.
  unfold wait_callback. rewrite catch_task_already_started_fst.
  destruct (is_current ex caller); [apply packaged_task_call_tidy|apply tidy_refl].
Qed.

Lemma future_wait_tidy caller ex f : tidy ex (future_wait func_call caller ex f).1.
Proof.
  unfold future_wait. destruct f as [t|]; [|apply tidy_refl].
  assert (T := wait_callback_tidy caller ex t).
  destruct (status_of ex t) as [[| |r]|]; try apply tidy_refl;
    destruct (wait_callback func_call caller ex t) as [ex' [[v|e]| |]]; try done;
    cbn [fst] in *; by repeat case_match.
Qed.

Lemma future_get_tidy caller ex f : tidy ex (future_get func_call caller ex f).1.
Proof.
  unfold future_get. assert (T := future_wait_tidy caller ex f).
  destruct (future_wait func_call caller ex f) as [ex' [[v|e]| |]]; try done.
  cbn [fst] in *. by repeat case_match.
Qed.

Lemma begin_invoke_tidy ex f p : tidy ex (begin_invoke ex f p).1.
Proof.
  unfold begin_invoke. destruct (negb (is_running_ ex)); [apply tidy_refl|].
  apply internal_begin_invoke_tidy.
Qed.

Lemma try_begin_invoke_tidy ex f p : tidy ex (try_begin_invoke ex f p).1.
Proof.
  unfold try_begin_invoke. destruct (negb (is_running_ ex)); [apply tidy_refl|].
  apply internal_begin_invoke_tidy.
Qed.

Lemma invoke_tidy caller ex f p : tidy ex (invoke func_call caller ex f p).1.
Proof.
  unfold invoke. destruct (is_current ex caller); [apply func_call_tidy|].
  assert (T := begin_invoke_tidy ex f p).
  destruct (begin_invoke ex f p) as [ex' [[[|z|future]|e]| |]]; try done.
  cbn [fst] in *. eapply tidy_trans; [done|]. apply future_get_tidy.
Qed.

Lemma yield_tidy caller ex : tidy ex (yield O func_call caller ex).1.
Proof.
  unfold yield. destruct (negb (is_current ex caller)); [apply tidy_refl|].
  destruct (bq.try_pop O (execution_queue_ ex)) as [[f q]|] eqn:H; [|apply tidy_refl].
  destruct (pop_tidy O ex f q H) as [T _].
  eapply tidy_trans; [done|]. apply queued_function_tidy.
Qed.

Lemma clear_tidy ex : tidy ex (clear O ex).
Proof. apply tidy_shrink; [|done|done]. unfold clear. norm. apply clear_loop_subseteq. Qed.

Lemma do_call_tidy caller ex c : tidy ex (do_call O func_call caller ex c).1.
Proof.
  destruct c; simpl.
  - apply try_begin_invoke_tidy.
  - apply begin_invoke_tidy.
  - apply invoke_tidy.
  - apply yield_tidy.
  - by apply tidy_shrink.
  - apply clear_tidy.
  - apply invoke_tidy.
  - apply invoke_tidy.
  - apply future_wait_tidy.
  - apply future_get_tidy.
Qed.

(** The loop: an entry it pops is allocated, so calling it throws nothing
    and the handler of the loop is never entered. *)
Lemma run_tidy n ex :
  tidy ex (run O func_call n ex).1 /\
  (allocated ex -> forall e, (run O func_call n ex).2 <> finished (exception e)).
Proof.
  revert ex. induction n as [|n IH]; intros ex; [split; [apply tidy_refl|done]|].
  cbn [run]. destruct (is_running_ ex); [|split; [apply tidy_refl|done]].
  change (bq.pop O (execution_queue_ ex)) with (bq.try_pop O (execution_queue_ ex)).
  destruct (bq.try_pop O (execution_queue_ ex)) as [[f q]|] eqn:H;
    [|split; [apply tidy_refl|done]].
  destruct (pop_tidy O ex f q H) as [T Hf].
  set (ex0 := set_execution_queue_ q ex) in *.
  assert (T1 := queued_function_tidy ex0 (func f)).
  assert (N1 := queued_function_returns ex0 (func f)).
  unfold priority_function_call.
  destruct (queued_function func_call ex0 (func f)) as [ex' [[v|e]| |]]; cbn [fst snd] in *.
  - destruct (IH ex') as [T2 N2]. split.
    + eapply tidy_trans; [done|]. by eapply tidy_trans.
    + intros A. apply N2. by apply T1, T.
  - split.
    + intros A. exfalso. apply (N1 e); [|done].
      unfold allocated in A. rewrite Forall_forall in A. by apply A.
    + intros A. exfalso. apply (N1 e); [|done].
      unfold allocated in A. rewrite Forall_forall in A. by apply A.
  - split; [by eapply tidy_trans|done].
  - split; [by eapply tidy_trans|done].
Qed.

End tidy_steps.

Lemma exec_tidy O n : tidy_calls (exec O n).
Proof.
  induction n as [|n IH]; intros ex a; [apply tidy_refl|].
  destruct a; simpl; try apply tidy_refl.
  - by apply tidy_shrink.
  - assert (T := do_call_tidy O (exec O n) IH (thread_ ex) ex c).
    destruct (do_call O (exec O n) (thread_ ex) ex c) as [ex' [[v|e]| |]]; try done.
    cbn [fst] in *. eapply tidy_trans; [done|]. apply IH.
Qed.

Lemma new_executor_allocated name worker : allocated (new_executor name worker).
Proof. constructor. Qed.

(** Property X8: from a state in which every queue entry refers to an
    allocated task, as in a new executor, the worker loop never enters its
    exception handler, whatever the bodies it runs do: it neither logs an
    exception nor ends by one.  What a body throws stays in the task's
    handle; the only lines that reach the log are the overflow notices of
    submissions made by the bodies.  When the loop is left the queue
    entries still refer to allocated tasks, and so they do after any call
    made then. *)
Theorem worker_loop_never_logs_exception (O : queue_order) (m n : nat) (ex : executor) :
  allocated ex ->
  let r := run O (exec O m) n ex in
  allocated r.1 /\
  (exists l, log r.1 = log ex ++ l /\ Forall (fun e => is_debug e = true) l) /\
  (forall e, r.2 <> finished (exception e)) /\
  (forall caller c, allocated (do_call O (exec O m) caller r.1 c).1).
Proof.
  intros A r. destruct (run_tidy O (exec O m) (exec_tidy O m) n ex) as [T N].
  destruct (T A) as [A' L]. split_and!; [done|done|by apply N|].
  intros caller c. by apply (do_call_tidy O (exec O m) (exec_tidy O m) caller r.1 c).
Qed.

Lemma worker_loop_never_logs_exception_witness :
  let O := oldest_first in
  let ex := submit_all (new_executor "A" 0)
              [(a_throw (user_error 1), task_priority.low_priority);
               (a_seq c_yield (a_throw (user_error 2)), task_priority.high_priority)] in
  let r := run O (exec O 3) 3 ex in
  allocated ex /\
  r.2 = blocked in_pop /\
  log r.1 = [] /\
  status_of r.1 0 = Some (done (exception (user_error 1))) /\
  status_of r.1 1 = Some (done (exception (user_error 2))).
Proof.
  intros O ex r.
  assert (A : allocated ex) by (apply (bool_decide_unpack _); by vm_compute).
  destruct (worker_loop_never_logs_exception O 3 3 ex A) as (_ & (l & E & F) & N & _).
  fold r in E, N. split_and!; [done| | |by vm_compute..].
  - destruct (r.2) as [[v|e]| |] eqn:B; [by vm_compute in B|by destruct (N e)| |by vm_compute in B].
    by vm_compute in B.
  - assert (L : length (log r.1) = 0) by (by vm_compute).
    by destruct (log r.1).
Defined.

(** Property X9: [yield] on the worker thread never throws, whatever the
    entry it pops runs: in a state where the queue entries refer to
    allocated tasks it returns normally, or is suspended where the body it
    runs is suspended; what that body throws goes to its own handle. *)
Theorem yield_on_worker_never_throws (O : queue_order) (m : nat) (ex : executor)
    (e : error) :
  allocated ex ->
  (yield O (exec O m) (thread_ ex) ex).2 <> finished (exception e).
Proof.
  intros A. unfold yield. rewrite is_current_worker. simpl.
  destruct (bq.try_pop O (execution_queue_ ex)) as [[f q]|] eqn:H; [|done].
  destruct (pop_tidy O ex f q H) as [_ Hf].
  apply queued_function_returns. norm.
  unfold allocated in A. rewrite Forall_forall in A. by apply A.
Qed.

Lemma yield_on_worker_never_throws_witness :
  let O := oldest_first in
  let ex := submit_all (new_executor "A" 0)
              [(a_throw (user_error 1), task_priority.low_priority)] in
  let r := yield O (exec O 1) 0 ex in
  r.2 = finished (value rv_void) /\
  status_of r.1 0 = Some (done (exception (user_error 1))).
Proof.
  intros O ex r.
  assert (A : allocated ex) by (apply (bool_decide_unpack _); by vm_compute).
  assert (N := fun e => yield_on_worker_never_throws O 1 ex e A).
  split; [|by vm_compute]. change (thread_ ex) with 0 in N. fold r in N.
  destruct (r.2) as [[v|e]| |] eqn:E; [|by destruct (N e)|by vm_compute in E..].
  by vm_compute in E.
Defined.

(** ** What no execution undoes *)

(** Property X10: an executor is never restarted and never renamed.  In
    every state it can reach, its name and its worker thread are those it
    was constructed with; and once the flag is down, however that came
    about, it is down in every later state, where the worker loop does
    nothing and submissions are refused. *)
Theorem stopped_executor_stays_stopped (O : queue_order) (name : string)
    (worker : thread_id) (es es' : list event) :
  let ex := play O (new_executor name worker) es in
  let ex' := play O ex es' in
  name_ ex' = name /\
  thread_ ex' = worker /\
  print ex' = ("executor[" ++ name ++ "]")%string /\
  (forall caller, is_current ex' caller = true <-> caller = worker) /\
  (is_running ex = false ->
   is_running ex' = false /\
   (forall m n, (run O (exec O m) n ex').1 = ex') /\
   (forall f p, (begin_invoke ex' f p).1 = ex')).
Proof.
  intros ex ex'.
  destruct (play_ok O es (new_executor name worker)) as [I E]; [apply new_executor_inv|].
  fold ex in I, E. destruct (play_ok O es' ex I) as [I' E']. fold ex' in I', E'.
  assert (Hn : name_ ex' = name).
  { rewrite (evolves_name _ _ E'). by rewrite (evolves_name _ _ E). }
  assert (Ht : thread_ ex' = worker).
  { rewrite (evolves_thread _ _ E'). by rewrite (evolves_thread _ _ E). }
  split_and!; [done|done| | |].
  - unfold print. by rewrite Hn.
  - intros caller. unfold is_current. rewrite Ht. apply Nat.eqb_eq.
  - intros R. assert (R' : is_running_ ex' = false) by (by apply (evolves_running _ _ E')).
    split_and!; [done| |].
    + intros m n. by apply run_not_running.
    + intros f p. by rewrite begin_invoke_not_running.
Qed.

Lemma stopped_executor_stays_stopped_witness :
  let O := oldest_first in
  let normal := task_priority.normal_priority in
  let es := [e_call 1 1 (c_begin_invoke a_stop_flag normal); e_run 1 3] in
  let es' := [e_call 1 1 (c_set_capacity 7); e_run 1 3; e_destroy 1 0] in
  let ex := play O (new_executor "A" 0) es in
  let ex' := play O ex es' in
  is_running ex = false /\ is_running ex' = false /\ name_ ex' = "A"%string.
Proof.
  intros O normal es es' ex ex'.
  destruct (stopped_executor_stays_stopped O "A" 0 es es') as (N & _ & _ & _ & S).
  fold ex ex' in N, S. assert (R : is_running ex = false) by (by vm_compute).
  destruct (S R) as (R' & _). done.
Defined.

(** Property X11: a resolved task stays resolved with the same result.  In
    every state an executor can reach, a task that is done has the same
    result in every later state, where [wait] on its handle returns at once
    and [get] hands out that result, to every caller and leaving the
    executor as it is. *)
Theorem resolved_handle_is_final (O : queue_order) (name : string)
    (worker : thread_id) (es es' : list event) (t : task_id) (r : result) :
  let ex := play O (new_executor name worker) es in
  let ex' := play O ex es' in
  status_of ex t = Some (done r) ->
  status_of ex' t = Some (done r) /\
  (forall func_call caller,
     future_get func_call caller ex' (future_of t) = (ex', finished r) /\
     future_wait func_call caller ex' (future_of t) = (ex', finished (value rv_void))).
Proof.
  intros ex ex' St.
  destruct (play_ok O es (new_executor name worker)) as [I _]; [apply new_executor_inv|].
  fold ex in I. destruct (play_ok O es' ex I) as [_ E']. fold ex' in E'.
  unfold status_of in St. destruct (tasks ex !! t) as [tk|] eqn:K; [|done].
  injection St as St.
  destruct (evolves_tasks _ _ E' t tk K) as (tk' & K' & _ & L).
  assert (S' : status_of ex' t = Some (done r)).
  { rewrite (status_of_Some _ _ _ K'). rewrite St in L. destruct L as [L|L]; [done|by rewrite L]. }
  split; [done|].
  intros func_call caller. split; [by apply future_get_done|].
  unfold future_wait. by rewrite S'.
Qed.

Lemma resolved_handle_is_final_witness :
  let O := oldest_first in
  let normal := task_priority.normal_priority in
  let es := [e_call 1 1 (c_begin_invoke (a_return 7) normal); e_run 1 2] in
  let es' := [e_call 1 1 (c_begin_invoke (a_return 8) normal); e_call 1 0 c_clear;
              e_call 1 0 (c_future_get (future_of 0)); e_run 1 2] in
  let ex := play O (new_executor "A" 0) es in
  let ex' := play O ex es' in
  status_of ex 0 = Some (done (value (rv_int 7))) /\
  future_get (exec O 1) 5 ex' (future_of 0) = (ex', finished (value (rv_int 7))).
Proof.
  intros O normal es es' ex ex'.
  assert (St : status_of ex 0 = Some (done (value (rv_int 7)))) by (by vm_compute).
  destruct (resolved_handle_is_final O "A" 0 es es' 0 _ St) as (_ & G).
  split; [exact St|]. apply G.
Defined.

(** ** Bodies run on the worker thread only *)

(** Property X12: task bodies run on the worker thread only.  Whatever
    another thread calls, including [wait] and [get] on a handle and the
    destructor, no body is entered, the flag is not touched, and every task
    allocated before is exactly as it was; the call does what it would do if
    bodies could not be run at all. *)
Theorem bodies_run_only_on_worker (O : queue_order)
    (func_call : executor -> action -> executor * outcome)
    (caller : thread_id) (ex : executor) (c : call) :
  caller <> thread_ ex ->
  let r := do_call O func_call caller ex c in
  let d := destroy func_call caller ex in
  (executed r.1 = executed ex /\
   is_running_ r.1 = is_running_ ex /\
   (forall t tk, tasks ex !! t = Some tk -> tasks r.1 !! t = Some tk) /\
   r = do_call O (fun ex' _ => (ex', out_of_fuel)) caller ex c) /\
  (executed d.1 = executed ex /\
   is_running_ d.1 = is_running_ ex /\
   (forall t tk, tasks ex !! t = Some tk -> tasks d.1 !! t = Some tk) /\
   d = destroy (fun ex' _ => (ex', out_of_fuel)) caller ex).
Proof.
  intros N r d.
  destruct (call_off_worker O func_call caller ex c N)
    as ((E & R & _ & K & I) & (E' & R' & _ & K' & I')).
  done.
Qed.

Lemma bodies_run_only_on_worker_witness :
  let O := oldest_first in
  let ex := submit_all (new_executor "A" 0)
              [(a_return 1, task_priority.low_priority)] in
  let r := do_call O (exec O 2) 1 ex (c_future_get (future_of 0)) in
  let w := do_call O (exec O 2) 0 ex (c_future_get (future_of 0)) in
  (executed r.1 = [] /\ r.2 = blocked (in_future_wait 0)) /\
  (executed w.1 = [0] /\ w.2 = finished (value (rv_int 1))).
Proof.
  intros O ex r w.
  assert (N : 1 <> thread_ ex) by (vm_compute; lia).
  destruct (bodies_run_only_on_worker O (exec O 2) 1 ex (c_future_get (future_of 0)) N)
    as ((E & _ & _ & D) & _).
  fold r in E, D. split; [split; [exact E|by rewrite D]|by vm_compute].
Defined.

(** ** The bound of the channel *)

Lemma pop_capacity O q x q' : bq.pop O q = Some (x, q') -> bq.capacity q' = bq.capacity q.
Proof.
  unfold bq.pop, bq.try_pop. destruct (bq.items q !! select O (bq.items q)); [|done].
  by intros [= _ <-].
Qed.

Lemma internal_begin_invoke_bounded ex f try_begin p :
  size ex <= capacity ex ->
  let r := internal_begin_invoke ex f try_begin p in
  size r.1 <= capacity r.1 /\ capacity r.1 = capacity ex.
Proof.
  intros B r. unfold r. destruct (decide (size ex < capacity ex)) as [L|L].
  - rewrite internal_begin_invoke_room by done. cbn [fst].
    unfold size, capacity, bq.size, submitted in *. norm. cbn [bq.items bq.capacity].
    rewrite length_app. simpl. lia.
  - destruct try_begin.
    + by rewrite internal_begin_invoke_full_try by lia.
    + by rewrite internal_begin_invoke_full_block by lia.
Qed.

(** Property X13: the queue never grows beyond its capacity by a submission.
    From a state within the bound, every call another thread can make, other
    than [set_capacity], ends within the bound and leaves the capacity
    alone, and so do the destructor and a suspended [push] that resumes; and
    the worker loop over bodies that make no calls of their own only ever
    shortens the queue. *)
Theorem size_stays_within_capacity (O : queue_order)
    (func_call : executor -> action -> executor * outcome) (m n : nat)
    (caller : thread_id) (ex : executor) (c : call) (x : priority_function) :
  size ex <= capacity ex ->
  (caller <> thread_ ex -> (forall k, c <> c_set_capacity k) ->
   let r := do_call O func_call caller ex c in
   size r.1 <= capacity r.1 /\ capacity r.1 = capacity ex) /\
  (caller <> thread_ ex ->
   let d := destroy func_call caller ex in
   size d.1 <= capacity d.1 /\ capacity d.1 = capacity ex) /\
  (let r := push_resumed ex x in
   size r.1 <= capacity r.1 /\ capacity r.1 = capacity ex) /\
  (calm ex ->
   let r := run O (exec O (S m)) n ex in
   size r.1 <= size ex /\ capacity r.1 = capacity ex).
Proof.
  intros B.
  assert (Inv : forall f p, caller <> thread_ ex ->
            let i := invoke func_call caller ex f p in
            size i.1 <= capacity i.1 /\ capacity i.1 = capacity ex).
  { intros f p N i. unfold i, invoke. rewrite is_current_other by done.
    unfold begin_invoke. destruct (negb (is_running_ ex)); [done|].
    destruct (internal_begin_invoke_bounded ex f false p B) as [B' C'].
    destruct (internal_begin_invoke_runs_nothing ex f false p) as (_ & _ & T & _).
    destruct (internal_begin_invoke ex f false p) as [ex' [[[|z|future]|e]| |]];
      cbn [fst] in *; try done.
    destruct (future_get func_call caller ex' future) as [ex1 o1] eqn:G.
    assert (N' : caller <> thread_ ex') by (by rewrite T).
    by destruct (future_get_other _ _ _ _ _ _ N' G) as [-> _]. }
  split_and!.
  - intros N Hc r. unfold r. destruct c; cbn [do_call].
    + unfold try_begin_invoke. destruct (negb (is_running_ ex)); [done|].
      by apply internal_begin_invoke_bounded.
    + unfold begin_invoke. destruct (negb (is_running_ ex)); [done|].
      by apply internal_begin_invoke_bounded.
    + by apply Inv.
    + unfold yield. by rewrite is_current_other.
    + by destruct (Hc n0).
    + cbn [ret fst]. assert (E : bq.items (execution_queue_ (clear O ex)) = []).
      { unfold clear. norm. by apply clear_loop_empties. }
      unfold size, bq.size. rewrite E. split; [simpl; lia|].
      unfold capacity, clear. norm. apply clear_loop_capacity.
    + by apply Inv.
    + by apply Inv.
    + by rewrite future_wait_other.
    + destruct (future_get func_call caller ex f) as [ex1 o1] eqn:G.
      by destruct (future_get_other _ _ _ _ _ _ N G) as [-> _].
  - intros N d. unfold d, destroy.
    destruct (internal_begin_invoke_bounded ex a_stop_flag false
                task_priority.normal_priority B) as [B' C'].
    destruct (internal_begin_invoke_runs_nothing ex a_stop_flag false
                task_priority.normal_priority) as (_ & _ & T & _).
    destruct (internal_begin_invoke ex a_stop_flag false task_priority.normal_priority)
      as [ex' [[[|z|future]|e]| |]]; cbn [fst] in *; try done.
    assert (N' : caller <> thread_ ex') by (by rewrite T).
    assert (F := future_wait_other func_call caller ex' future N').
    destruct (future_wait func_call caller ex' future) as [ex1 [[v|e]| |]];
      cbn [fst] in *; subst ex1; done.
  - unfold push_resumed, bq.push.
    destruct (decide (size ex < capacity ex)) as [L|L].
    + rewrite try_push_room by done. cbn [fst ret].
      unfold size, capacity, bq.size in *. norm. cbn [bq.items bq.capacity].
      rewrite length_app. simpl. lia.
    + by rewrite try_push_full by (unfold size, capacity in *; lia).
  - intros C r.
    apply (run_calm_invariant O
             (fun ex' => size ex' <= size ex /\ capacity ex' = capacity ex) m n ex);
      [|done|done].
    clear. intros ex' f q _ [S C] _ H. unfold size, capacity in *.
    rewrite plain_call_queue. norm. assert (K := pop_capacity O _ _ _ H).
    apply pop_size in H. split; [lia|congruence].
Qed.

Lemma size_stays_within_capacity_witness :
  let O := oldest_first in
  let ex := set_capacity (submit_all (new_executor "A" 0)
                            [(a_return 1, task_priority.low_priority)]) 1 in
  let r := do_call O (exec O 1) 1 ex (c_begin_invoke a_skip task_priority.normal_priority) in
  size ex <= capacity ex /\ size r.1 = 1 /\ capacity r.1 = 1 /\
  r.2 = blocked (in_push (mk_priority_function 3 1)).
Proof.
  intros O ex r.
  assert (B : size ex <= capacity ex) by (vm_compute; lia).
  destruct (size_stays_within_capacity O (exec O 1) 0 0 1 ex
              (c_begin_invoke a_skip task_priority.normal_priority)
              (mk_priority_function 3 1) B) as (D & _).
  destruct D as [S C]; [vm_compute; lia|done|].
  fold r in S, C. split_and!; [exact B| |exact C|by vm_compute].
  assert (L : 1 <= size r.1) by (vm_compute; lia).
  change (capacity ex) with 1 in C. lia.
Defined.

(** ** Submitting from inside a task *)

(** Submissions that all find room: what they leave behind. *)
Lemma submit_all_fits subs ex :
  is_running_ ex = true ->
  length subs <= capacity ex - size ex ->
  let ex' := submit_all ex subs in
  bq.items (execution_queue_ ex') =
    bq.items (execution_queue_ ex) ++ imap (entry_of (length (tasks ex))) subs /\
  capacity ex' = capacity ex /\
  tasks ex' = tasks ex ++ ((fun sub => mk_packaged_task sub.1 pending) <$> subs) /\
  same_core ex (set_tasks (tasks ex) ex') /\
  log ex' = log ex.
Proof.
  revert ex. induction subs as [|[g p] subs IH]; intros ex R L; simpl.
  - by rewrite !app_nil_r.
  - simpl in L. rewrite begin_invoke_room by (done || lia). cbn [fst].
    destruct (IH (submitted ex g p)) as (I' & C' & T' & (Co1 & Co2 & Co3 & _ & Co5) & L').
    { done. }
    { unfold size, capacity, bq.size, submitted in *. norm. cbn [bq.items bq.capacity].
      rewrite length_app. simpl. lia. }
    norm. split_and!.
    + rewrite I'. unfold submitted. norm. cbn [bq.items]. rewrite <- app_assoc. f_equal.
      simpl. f_equal.
      * unfold entry_of. simpl. by rewrite Nat.add_0_r.
      * rewrite length_app. simpl. apply imap_ext. intros i x _. unfold entry_of. simpl.
        f_equal. lia.
    + by rewrite C'.
    + rewrite T'. unfold submitted. norm. by rewrite <- app_assoc.
    + done.
    + done.
Qed.

(** A body that starts with submissions that all find room makes them and
    goes on. *)
Lemma exec_submits_fit O m fit k ex :
  is_running_ ex = true ->
  length fit <= capacity ex - size ex ->
  exec O (length fit + m) ex (submits fit k) = exec O m (submit_all ex fit) k.
Proof.
  revert ex. induction fit as [|[g p] fit IH]; intros ex R L; [done|].
  simpl in L. cbn [length submits submit_all Nat.add exec do_call].
  rewrite begin_invoke_room by (done || lia). cbn [fst]. apply IH; [done|].
  unfold size, capacity, bq.size, submitted in *. norm. cbn [bq.items bq.capacity].
  rewrite length_app. simpl. lia.
Qed.

Lemma submits_app fit rest k : submits (fit ++ rest) k = submits fit (submits rest k).
Proof. induction fit as [|[g p] fit IH]; simpl; [done|by rewrite IH]. Qed.

(** Property X14: only [invoke] has a path for the worker thread;
    [begin_invoke] has none.  When the worker loop runs a task whose body
    begins with submissions through [begin_invoke], more of them than the
    channel has room for once the task's own entry is out, the submissions
    that find room are queued and at the first that does not the worker
    itself is suspended in [push]: the overflow is logged, the new task is
    allocated but not queued, the rest of the body does not run, the task
    stays started and unresolved, and the loop does not reach its next
    round. *)
Theorem begin_invoke_in_task_suspends_worker (O : queue_order) (m n : nat)
    (ex : executor) (f : priority_function) (q : bq.t) (tk : packaged_task)
    (subs : list (action * task_priority.type)) (k g : action)
    (p : task_priority.type) :
  is_running_ ex = true ->
  bq.pop O (execution_queue_ ex) = Some (f, q) ->
  tasks ex !! func f = Some tk ->
  status tk = pending ->
  body tk = submits subs k ->
  let room := bq.capacity q - bq.size q in
  subs !! room = Some (g, p) ->
  let r := run O (exec O (room + S m)) (S n) ex in
  let t := length (tasks ex) + room in
  r.2 = blocked (in_push (mk_priority_function (task_priority.value p) t)) /\
  bq.items (execution_queue_ r.1) =
    bq.items q ++ imap (entry_of (length (tasks ex))) (take room subs) /\
  capacity r.1 = bq.capacity q /\
  (bq.size q <= bq.capacity q -> size r.1 = bq.capacity q) /\
  status_of r.1 (func f) = Some started /\
  tasks r.1 !! t = Some (mk_packaged_task g pending) /\
  executed r.1 = executed ex ++ [func f] /\
  log r.1 = log ex ++ [log_debug (print ex ++ " Overflow. Blocking caller.")%string] /\
  is_running_ r.1 = true.
Proof.
  intros R H K St B room G r t.
  set (ex1 := add_executed (func f) (set_status (func f) started (set_execution_queue_ q ex))).
  set (fit := take room subs).
  assert (Lf : length fit = room).
  { unfold fit. rewrite length_take. apply lookup_lt_Some in G. lia. }
  assert (Es : subs = fit ++ (g, p) :: drop (S room) subs).
  { unfold fit. symmetry. by apply take_drop_middle. }
  assert (L1 : length (tasks ex1) = length (tasks ex)).
  { unfold ex1, set_status. norm. by rewrite length_alter. }
  assert (Fit : length fit <= capacity ex1 - size ex1) by (by rewrite Lf).
  destruct (submit_all_fits fit ex1 R Fit) as (I2 & C2 & T2 & (N2 & _ & R2 & _ & X2) & G2).
  set (ex2 := submit_all ex1 fit) in *. norm.
  assert (L2 : length (tasks ex2) = t).
  { rewrite T2, length_app, length_fmap, L1, Lf. done. }
  assert (F2 : capacity ex2 <= size ex2).
  { rewrite C2. unfold size, bq.size. rewrite I2, length_app, length_imap, Lf.
    unfold capacity, ex1. norm. unfold room, bq.size. lia. }
  assert (E : r = (add_log (log_debug (print ex2 ++ " Overflow. Blocking caller.")%string)
                     (set_tasks (tasks ex2 ++ [mk_packaged_task g pending]) ex2),
                   blocked (in_push (mk_priority_function (task_priority.value p) t)))).
  { unfold r. cbn [run]. rewrite R, H.
    unfold priority_function_call, queued_function, packaged_task_call. norm.
    rewrite K, St, B. fold ex1. rewrite Es, submits_app, <- Lf.
    rewrite (exec_submits_fit O (S m) fit _ ex1 R Fit). fold ex2.
    cbn [submits exec do_call].
    unfold begin_invoke. rewrite R2. change (is_running_ ex1) with (is_running_ ex).
    rewrite R. simpl negb. cbv iota.
    rewrite internal_begin_invoke_full_block by done. by rewrite L2. }
  rewrite E. cbn [fst snd]. norm. split_and!.
  - done.
  - by rewrite I2, L1.
  - unfold capacity. norm. fold (capacity ex2). by rewrite C2.
  - intros Le. unfold size, bq.size. norm. rewrite I2, length_app, length_imap, Lf.
    unfold ex1. norm. unfold room, bq.size in *. lia.
  - unfold status_of. norm. rewrite T2, <- app_assoc, lookup_app_l.
    + unfold ex1, set_status. norm. by rewrite list_lookup_alter_eq, K.
    + rewrite L1. by eapply lookup_lt_Some.
  - rewrite lookup_app_r by lia. by rewrite L2, Nat.sub_diag.
  - by rewrite X2.
  - rewrite G2. unfold print. by rewrite N2.
  - by rewrite R2.
Qed.

Lemma begin_invoke_in_task_suspends_worker_witness :
  let O := oldest_first in
  let normal := task_priority.normal_priority in
  let subs := replicate 513 (a_skip, normal) in
  let ex := submit_all (new_executor "A" 0) [(submits subs (a_return 2), normal)] in
  let r := run O (exec O 513) 5 ex in
  (is_running_ ex = true /\ size ex = 1 /\ capacity ex = 512) /\
  r.2 = blocked (in_push (mk_priority_function 3 513)) /\
  size r.1 = 512 /\
  status_of r.1 0 = Some started /\
  executed r.1 = [0].
Proof.
  intros O normal subs ex r.
  assert (H1 : is_running_ ex = true) by reflexivity.
  assert (H2 : bq.pop O (execution_queue_ ex) =
               Some (mk_priority_function 3 0, bq.mk [] 512)) by reflexivity.
  assert (H3 : tasks ex !! 0 =
               Some (mk_packaged_task (submits subs (a_return 2)) pending)) by reflexivity.
  assert (H6 : subs !! 512 = Some (a_skip, normal)) by (by vm_compute).
  destruct (begin_invoke_in_task_suspends_worker O 0 4 ex (mk_priority_function 3 0)
              (bq.mk [] 512) (mk_packaged_task (submits subs (a_return 2)) pending)
              subs (a_return 2) a_skip normal H1 H2 H3 eq_refl eq_refl H6)
    as (B & _ & _ & Sz & St & _ & X & _).
  split_and!; [done|done|done|exact B| |exact St|exact X].
  apply Sz. vm_compute. lia.
Defined.

(** ** Results reach the handle *)

Section delivery.

Context (O : queue_order).

Lemma run_keeps_done m n ex t res :
  calm ex -> status_of ex t = Some (done res) ->
  status_of (run O (exec O (S m)) n ex).1 t = Some (done res).
Proof.
  intros C S.
  apply (run_calm_invariant O (fun ex => status_of ex t = Some (done res)) m n ex); [|done|done].
  clear. intros ex f q _ S _ _. unfold status_of in *.
  rewrite plain_call_tasks. norm.
  destruct (decide (func f = t)) as [<-|N].
  - rewrite list_lookup_alter_eq. destruct (tasks ex !! func f) as [tk|]; [|done].
    simpl in *. injection S as S. by rewrite S.
  - by rewrite list_lookup_alter_ne.
Qed.

(** From a ready state the loop resolves every queued task with what its
    body returns or throws. *)
Lemma run_resolves m n ex :
  ready ex -> size ex < n ->
  forall g, g ∈ bq.items (execution_queue_ ex) ->
    exists tk, tasks ex !! func g = Some tk /\
      status_of (run O (exec O (S m)) n ex).1 (func g) = Some (done (plain_result (body tk))).
Proof.
  revert ex. induction n as [|n IH]; intros ex Rd L g Hg; [lia|].
  assert (R : is_running_ ex = true) by apply Rd.
  destruct (bq.pop O (execution_queue_ ex)) as [[f q]|] eqn:H.
  - rewrite (run_calm_step O m n ex f q (proj1 Rd) R H).
    destruct (ready_step O ex f q Rd H) as (Rd' & _ & Q').
    destruct (calm_pop O ex f q (proj1 Rd) H) as (_ & Hf & Hq & Hcases).
    set (ex' := plain_call (set_execution_queue_ q ex) (func f)) in *.
    destruct (Hcases g Hg) as [->|Hg'].
    + destruct Rd as (C & _ & Q). destruct (Q f Hf) as (tk & K & S & _).
      exists tk. split; [done|]. apply run_keeps_done; [apply Rd'|].
      unfold ex', status_of. rewrite plain_call_tasks, list_lookup_alter_eq. norm.
      rewrite K. simpl. by rewrite S.
    + destruct (IH ex' Rd') with (g := g) as (tk & K & S).
      * unfold size. rewrite Q'. apply pop_size in H. unfold size in L. lia.
      * by rewrite Q'.
      * exists tk. split; [|done]. destruct (Hq g Hg') as [_ N].
        unfold ex' in K. by rewrite plain_call_other in K.
  - apply pop_None in H. rewrite H in Hg. by apply elem_of_nil in Hg.
Qed.

End delivery.

(** Property X15: the result of a task reaches its handle.  A submission
    through [begin_invoke] that finds room on a running executor, among
    tasks whose bodies return or throw, hands out the handle of a new
    pending task; once the worker loop has emptied the queue, the body of
    the task has been run and [get] on the handle returns its value, or
    rethrows what it threw, to every caller and without blocking. *)
Theorem submitted_result_is_delivered (O : queue_order) (m n : nat)
    (func_call : executor -> action -> executor * outcome) (caller : thread_id)
    (ex : executor) (f : action) (p : task_priority.type) :
  ready ex ->
  size ex < capacity ex ->
  returns_or_throws f = true ->
  S (size ex) < n ->
  let t := length (tasks ex) in
  let b := begin_invoke ex f p in
  let r := run O (exec O (S m)) n b.1 in
  b.2 = finished (value (rv_future (future_of t))) /\
  status_of b.1 t = Some pending /\
  r.2 = blocked in_pop /\
  status_of r.1 t = Some (done (plain_result f)) /\
  future_get func_call caller r.1 (future_of t) = (r.1, finished (plain_result f)) /\
  t ∈ executed r.1.
Proof.
  intros Rd L Hf Ln t b r.
  assert (Eb : b = (submitted ex f p, finished (value (rv_future (future_of t))))).
  { unfold b. apply begin_invoke_room; [apply Rd|done]. }
  assert (Rd' : ready (submitted ex f p)) by (by apply submitted_ready).
  assert (Sz : size (submitted ex f p) = S (size ex)).
  { unfold size, bq.size, submitted. norm. cbn [bq.items]. rewrite length_app. simpl. lia. }
  assert (Hg : mk_priority_function (task_priority.value p) t
               ∈ bq.items (execution_queue_ (submitted ex f p))).
  { unfold submitted. norm. cbn [bq.items]. apply elem_of_app. right.
    by apply list_elem_of_singleton. }
  destruct (run_resolves O m n _ Rd') with (g := mk_priority_function (task_priority.value p) t)
    as (tk & K & S); [lia|done|].
  cbn [func] in K, S. unfold t in K. rewrite submitted_lookup in K. injection K as <-.
  cbn [body] in S.
  destruct (run_drains O m n _ Rd') as [B X]; [lia|].
  unfold r. rewrite Eb. cbn [fst snd]. split_and!.
  - done.
  - apply status_of_submitted.
  - done.
  - done.
  - by apply future_get_done.
  - rewrite X. apply elem_of_app. right. apply list_elem_of_fmap.
    exists (mk_priority_function (task_priority.value p) t). split; [done|].
    rewrite (dequeue_all_Permutation O); [done|]. unfold size. lia.
Qed.

Lemma submitted_result_is_delivered_witness :
  let O := newest_first in
  let ex := submit_all (new_executor "A" 0)
              [(a_throw (user_error 1), task_priority.high_priority)] in
  let b := begin_invoke ex (a_return 7) task_priority.low_priority in
  let r := run O (exec O 1) 3 b.1 in
  b.2 = finished (value (rv_future (future_of 1))) /\
  future_get (exec O 1) 5 r.1 (future_of 1) = (r.1, finished (value (rv_int 7))) /\
  executed r.1 = [0; 1].
Proof.
  intros O ex b r.
  assert (Rd : ready ex).
  { apply (submit_all_ready _ (new_executor "A" 0)); [apply new_executor_ready|vm_compute; lia|].
    by repeat constructor. }
  destruct (submitted_result_is_delivered O 0 3 (exec O 1) 5 ex (a_return 7)
              task_priority.low_priority Rd) as (B & _ & _ & _ & G & _);
    [vm_compute; lia|done|vm_compute; lia|].
  fold b in B, G. fold r in G. split_and!; [exact B|exact G|by vm_compute].
Defined.

(** ** The destructor of a running executor *)

Section destruction.

Context (O : queue_order) (s : task_id).



End destruction.



(** ** Destruction after [stop] *)

(** Property X17: the destructor does not consult the flag.  On an executor
    that has been stopped, called off the worker thread, it still allocates
    its shutdown task and, with room in the channel, queues it and waits on
    its handle; with a full channel it is suspended in [push].  The worker
    loop has ended and pops nothing, so the wait is never over: whatever is
    called off the worker thread from then on, and however often the loop is
    entered again, no body runs and the shutdown task stays pending. *)
Theorem destroy_after_stop_blocks (O : queue_order)
    (func_call : executor -> action -> executor * outcome)
    (caller : thread_id) (ex : executor) :
  is_running_ ex = false ->
  caller <> thread_ ex ->
  let s := length (tasks ex) in
  let r := destroy func_call caller ex in
  (exists w, r.2 = blocked w) /\
  status_of r.1 s = Some pending /\
  is_running_ r.1 = false /\
  (forall n, run O func_call (S n) r.1 = (r.1, finished (value rv_void))) /\
  (forall caller', caller' <> thread_ ex ->
     future_wait func_call caller' r.1 (future_of s) = (r.1, blocked (in_future_wait s))) /\
  (size ex < capacity ex ->
   r = (submitted ex a_stop_flag task_priority.normal_priority,
        blocked (in_future_wait s))) /\
  (forall es, Forall (off_worker (thread_ ex)) es ->
     let ex' := play O r.1 es in
     status_of ex' s = Some pending /\ is_running_ ex' = false /\
     executed ex' = executed ex).
Proof.
  intros R N s r.
  assert (W : forall ex1 caller', thread_ ex1 = thread_ ex -> caller' <> thread_ ex ->
            status_of ex1 s = Some pending ->
            future_wait func_call caller' ex1 (future_of s) =
            (ex1, blocked (in_future_wait s))).
  { intros ex1 caller' T N' S. unfold future_wait.
    rewrite S, wait_callback_other by (by rewrite T). cbn [ret]. by rewrite S. }
  destruct (decide (size ex < capacity ex)) as [L|L].
  - assert (E : r = (submitted ex a_stop_flag task_priority.normal_priority,
                     blocked (in_future_wait s))).
    { unfold r, destroy. rewrite internal_begin_invoke_room by done.
      by rewrite W by (done || apply status_of_submitted). }
    rewrite E. cbn [fst snd]. split_and!; try done.
    + by eexists.
    + apply status_of_submitted.
    + intros n. cbn [run]. unfold submitted. norm. by rewrite R.
    + intros caller' N'. apply W; [done|done|apply status_of_submitted].
    + intros es F.
      destruct (play_off_worker_stopped O es
                  (submitted ex a_stop_flag task_priority.normal_priority) R F)
        as (R' & _ & E' & K').
      split_and!; [|done|done].
      unfold s.
      by rewrite (status_of_Some _ _ _
                    (K' _ _ (submitted_lookup ex a_stop_flag task_priority.normal_priority))).
  - assert (E : r = (add_log (log_debug (print ex ++ " Overflow. Blocking caller.")%string)
                       (set_tasks (tasks ex ++ [mk_packaged_task a_stop_flag pending]) ex),
                     blocked (in_push (mk_priority_function
                        (task_priority.value task_priority.normal_priority) s)))).
    { unfold r, destroy. by rewrite internal_begin_invoke_full_block by lia. }
    assert (S : status_of r.1 s = Some pending).
    { rewrite E. unfold status_of. norm. rewrite lookup_app_r by lia.
      by rewrite Nat.sub_diag. }
    split_and!.
    + rewrite E. by eexists.
    + done.
    + by rewrite E.
    + intros n. cbn [run]. rewrite E. norm. by rewrite R.
    + intros caller' N'. apply W; [by rewrite E|done|done].
    + intros L'. lia.
    + intros es F ex'. unfold ex'. clear ex'. unfold status_of in S.
      destruct (tasks r.1 !! s) as [tk|] eqn:K; [|done]. injection S as S.
      destruct (play_off_worker_stopped O es r.1) as (R' & _ & E' & K');
        [by rewrite E|by rewrite E|].
      split_and!; [|done|by rewrite E', E].
      rewrite (status_of_Some _ _ _ (K' _ _ K)). by rewrite S.
Qed.

Lemma destroy_after_stop_blocks_witness :
  let O := oldest_first in
  let ex := (stop (exec O 1) 0 (new_executor "A" 0)).1 in
  let r := destroy (exec O 1) 1 ex in
  let es := [e_call 1 2 (c_future_get (future_of 0)); e_run 1 5; e_call 1 3 c_clear;
             e_push_resumed (mk_priority_function 3 0); e_run 1 5] in
  is_running_ ex = false /\
  r.2 = blocked (in_future_wait 0) /\
  size r.1 = 1 /\
  run O (exec O 1) 5 r.1 = (r.1, finished (value rv_void)) /\
  status_of (play O r.1 es) 0 = Some pending /\
  executed (play O r.1 es) = [].
Proof.
  intros O ex r es.
  assert (R : is_running_ ex = false) by reflexivity.
  assert (N : 1 <> thread_ ex) by (vm_compute; lia).
  destruct (destroy_after_stop_blocks O (exec O 1) 1 ex R N) as (_ & _ & _ & L & _ & E & P).
  fold r in L, E, P.
  assert (E' := E ltac:(vm_compute; lia)).
  destruct (P es) as (S & _ & X); [repeat constructor; simpl; lia|].
  split_and!; [done|by rewrite E'|by rewrite E'|exact (L 4)|exact S|exact X].
Defined.
